(** * transcript_cleaner.py: the extractor, the text cleaner and the two renderers

    A shallow embedding of [TranscriptCleaner] (src/transcript_cleaner.py) and
    the properties its specification states about it.

    Python strings are sequences of Unicode code points, so a string is a list
    of code points here.  The regular expressions of the program are values of
    a small pattern type, run by a backtracking matcher that follows the
    priorities of Python's [re] (leftmost match, greedy and lazy repetition,
    alternatives tried in order). *)

From Stdlib Require Import String Ascii NArith Arith Lia Bool List Permutation.
From Stdlib Require Import DecimalString.
Import ListNotations.

Set Implicit Arguments.

(** ** Strings *)

Definition char := N.
Definition str := list char.

(** An ASCII literal as a Python string. *)
Definition lit (s : string) : str := map N_of_ascii (list_ascii_of_string s).

Definition dquote : char := 34%N.
Definition lt_sign : char := 60%N.
Definition gt_sign : char := 62%N.
Definition amp : char := 38%N.
Definition space : char := 32%N.
Definition newline : char := 10%N.

Definition just (c : char) : char -> bool := N.eqb c.
Definition except (c : char) : char -> bool := fun d => negb (N.eqb c d).
Definition one_of (cs : str) : char -> bool := fun d => existsb (N.eqb d) cs.
Definition none_of (cs : str) : char -> bool := fun d => negb (one_of cs d).
Definition between (lo hi : char) : char -> bool :=
  fun d => (N.leb lo d && N.leb d hi)%bool.
Definition any_char : char -> bool := fun _ => true.

(** The characters [str.isspace] accepts; [\s] of a [str] pattern and
    [str.strip()] use the same test. *)
Definition is_space (c : char) : bool :=
  (one_of [9; 10; 11; 12; 13; 28; 29; 30; 31; 32; 133; 160; 5760;
           8232; 8233; 8239; 8287; 12288]%N c
   || between 8192%N 8202%N c)%bool.

Fixpoint lstrip (s : str) : str :=
  match s with
  | c :: s' => if is_space c then lstrip s' else s
  | [] => []
  end.

Definition rstrip (s : str) : str := rev (lstrip (rev s)).

(** [s.strip()] *)
Definition strip (s : str) : str := rstrip (lstrip s).

(** [sep.join(parts)] *)
Fixpoint join (sep : str) (parts : list str) : str :=
  match parts with
  | [] => []
  | [p] => p
  | p :: ps => p ++ sep ++ join sep ps
  end.

(** Truth value of a string or a list: non-empty. *)
Definition truthy {A} (l : list A) : bool :=
  match l with [] => false | _ :: _ => true end.

(** [str(n)] for a non-negative integer. *)
Definition str_of_nat (n : nat) : str :=
  lit (NilEmpty.string_of_uint (Nat.to_uint n)).

Definition str_eqb (a b : str) : bool :=
  if list_eq_dec N.eq_dec a b then true else false.

(** ** Regular expressions, as Python's [re] runs them *)

Module Re.

(** The patterns of the program repeat single characters only, so a
    repetition carries a character class, its bounds and its greediness. *)
Inductive re : Type :=
| Eps
| Chr (p : char -> bool)
| Seq (r1 r2 : re)
| Alt (r1 r2 : re)
| Rep (greedy : bool) (p : char -> bool) (lo : nat) (hi : option nat)
| Grp (r : re).

Definition star (p : char -> bool) : re := Rep true p 0 None.
Definition plus (p : char -> bool) : re := Rep true p 1 None.
Definition lazy_star (p : char -> bool) : re := Rep false p 0 None.
Definition opt (c : char) : re := Rep true (just c) 0 (Some 1).

(** A literal text. *)
Fixpoint text (s : str) : re :=
  match s with
  | [] => Eps
  | c :: s' => Seq (Chr (just c)) (text s')
  end.

Fixpoint seqs (rs : list re) : re :=
  match rs with
  | [] => Eps
  | [r] => r
  | r :: rs' => Seq r (seqs rs')
  end.

Definition may_take (hi : option nat) : bool :=
  match hi with Some 0 => false | _ => true end.

(** [p{lo,hi}] at [s], then the continuation [k] on what is left: a greedy
    repetition takes a character first and gives it back when the rest
    fails, a lazy one stops first and takes a character when the rest
    fails. *)
Fixpoint rep {A} (greedy : bool) (p : char -> bool) (lo : nat)
    (hi : option nat) (s : str) (k : str -> option A) {struct s} : option A :=
  match s with
  | c :: s' =>
      if (p c && may_take hi)%bool then
        if greedy then
          match rep greedy p (pred lo) (option_map pred hi) s' k with
          | Some x => Some x
          | None => match lo with 0 => k s | S _ => None end
          end
        else
          match (match lo with 0 => k s | S _ => None end) with
          | Some x => Some x
          | None => rep greedy p (pred lo) (option_map pred hi) s' k
          end
      else match lo with 0 => k s | S _ => None end
  | [] => match lo with 0 => k s | S _ => None end
  end.

(** The matcher, in continuation-passing style: [g] is the text of group 1
    so far. *)
Fixpoint run {A} (r : re) (s : str) (g : option str)
    (k : str -> option str -> option A) {struct r} : option A :=
  match r with
  | Eps => k s g
  | Chr p =>
      match s with
      | c :: s' => if p c then k s' g else None
      | [] => None
      end
  | Seq r1 r2 => run r1 s g (fun s1 g1 => run r2 s1 g1 k)
  | Alt r1 r2 =>
      match run r1 s g k with
      | Some x => Some x
      | None => run r2 s g k
      end
  | Rep greedy p lo hi => rep greedy p lo hi s (fun s1 => k s1 g)
  | Grp r1 =>
      run r1 s g
        (fun s1 _ => k s1 (Some (firstn (length s - length s1) s)))
  end.

(** A match anchored at the start of [s]: how many characters it takes, and
    group 1. *)
Definition match_at (r : re) (s : str) : option (nat * option str) :=
  run r s None (fun s1 g => Some (length s - length s1, g)).

(** What a scan of the text yields: the characters outside every match, and
    the matches, in order. *)
Inductive piece : Type :=
| Keep (c : char)
| Hit (whole : str) (g : option str).

(** The successive non-overlapping matches of [r] in [s], leftmost first
    ([skip] characters are still inside the previous match).  None of the
    program's patterns matches the empty string, so the rules of [re] for
    empty matches never apply; after an empty match the scan moves one
    character on. *)
Fixpoint scan (r : re) (s : str) (skip : nat) {struct s} : list piece :=
  match skip with
  | S n =>
      match s with
      | _ :: s' => scan r s' n
      | [] => []
      end
  | 0 =>
      match match_at r s with
      | Some (n, g) =>
          Hit (firstn n s) g ::
          match s with
          | c :: s' =>
              match n with
              | 0 => Keep c :: scan r s' 0
              | S m => scan r s' m
              end
          | [] => []
          end
      | None =>
          match s with
          | c :: s' => Keep c :: scan r s' 0
          | [] => []
          end
      end
  end.

Definition group1 (g : option str) : str :=
  match g with Some x => x | None => [] end.

(** [re.findall(r, s)] for a pattern with one group: the texts of group 1. *)
Definition findall (r : re) (s : str) : list str :=
  flat_map (fun p => match p with Keep _ => [] | Hit _ g => [group1 g] end)
           (scan r s 0).

(** [re.search(r, s)]: group 1 of the leftmost match. *)
Definition search (r : re) (s : str) : option str :=
  match findall r s with
  | g :: _ => Some g
  | [] => None
  end.

(** [re.sub(r, f, s)] with a function of the whole match and group 1 as
    replacement. *)
Definition sub (r : re) (f : str -> option str -> str) (s : str) : str :=
  flat_map (fun p => match p with Keep c => [c] | Hit w g => f w g end)
           (scan r s 0).

(** The least number of characters a match takes. *)
Fixpoint min_len (r : re) : nat :=
  match r with
  | Eps => 0
  | Chr _ => 1
  | Seq r1 r2 => min_len r1 + min_len r2
  | Alt r1 r2 => Nat.min (min_len r1) (min_len r2)
  | Rep _ _ lo _ => lo
  | Grp r1 => min_len r1
  end.

(** Whether the pattern has a group. *)
Fixpoint has_group (r : re) : bool :=
  match r with
  | Eps | Chr _ | Rep _ _ _ _ => false
  | Seq r1 r2 | Alt r1 r2 => (has_group r1 || has_group r2)%bool
  | Grp _ => true
  end.

End Re.

(** ** [html.unescape]

    The function of Python's standard library that [clean_text] calls first.
    The table of named character references ([html.entities.html5], some 2200
    entries) is a parameter: every result below holds for whatever the table
    holds.  [int] is taken at arbitrary precision. *)

Module Html.

(** A dictionary from entity names to their text, read by lookup only. *)
Definition entities := str -> option str.

Definition invalid_charrefs : list (N * str) :=
  [ (0x00, [0xfffd]); (0x0d, [0x0d]); (0x80, [0x20ac]); (0x81, [0x81]);
    (0x82, [0x201a]); (0x83, [0x0192]); (0x84, [0x201e]); (0x85, [0x2026]);
    (0x86, [0x2020]); (0x87, [0x2021]); (0x88, [0x02c6]); (0x89, [0x2030]);
    (0x8a, [0x0160]); (0x8b, [0x2039]); (0x8c, [0x0152]); (0x8d, [0x8d]);
    (0x8e, [0x017d]); (0x8f, [0x8f]); (0x90, [0x90]); (0x91, [0x2018]);
    (0x92, [0x2019]); (0x93, [0x201c]); (0x94, [0x201d]); (0x95, [0x2022]);
    (0x96, [0x2013]); (0x97, [0x2014]); (0x98, [0x02dc]); (0x99, [0x2122]);
    (0x9a, [0x0161]); (0x9b, [0x203a]); (0x9c, [0x0153]); (0x9d, [0x9d]);
    (0x9e, [0x017e]); (0x9f, [0x0178]) ]%N.

Definition invalid_codepoints (n : N) : bool :=
  (between 0x1 0x8 n || between 0xe 0x1f n || between 0x7f 0x9f n
   || between 0xfdd0 0xfdef n
   || one_of [0xb; 0xfffe; 0xffff; 0x1fffe; 0x1ffff; 0x2fffe; 0x2ffff;
              0x3fffe; 0x3ffff; 0x4fffe; 0x4ffff; 0x5fffe; 0x5ffff;
              0x6fffe; 0x6ffff; 0x7fffe; 0x7ffff; 0x8fffe; 0x8ffff;
              0x9fffe; 0x9ffff; 0xafffe; 0xaffff; 0xbfffe; 0xbffff;
              0xcfffe; 0xcffff; 0xdfffe; 0xdffff; 0xefffe; 0xeffff;
              0xffffe; 0xfffff; 0x10fffe; 0x10ffff] n)%N%bool.

Fixpoint lookup (n : N) (t : list (N * str)) : option str :=
  match t with
  | [] => None
  | (m, v) :: t' => if N.eqb n m then Some v else lookup n t'
  end.

Definition digit_value (c : char) : N :=
  (if between 48 57 c then c - 48
   else if between 97 102 c then c - 87
   else c - 55)%N.

(** [int(digits, base)] on a run of digits of that base. *)
Definition int_of (base : N) (digits : str) : N :=
  fold_left (fun acc c => (acc * base + digit_value c)%N) digits 0%N.

Fixpoint drop_semicolons (s : str) : str :=
  match s with
  | c :: s' => if N.eqb c 59 then drop_semicolons s' else s
  | [] => []
  end.

(** [s.rstrip(';')] *)
Definition rstrip_semicolon (s : str) : str := rev (drop_semicolons (rev s)).

(** The loop [for x in range(len(s)-1, 1, -1)] of [_replace_charref]: the
    longest proper prefix of at least two characters that is a name. *)
Fixpoint longest_name (html5 : entities) (s : str) (x : nat) : option str :=
  match x with
  | S (S _ as x') =>
      match html5 (firstn x s) with
      | Some v => Some (v ++ skipn x s)
      | None => longest_name html5 s x'
      end
  | _ => None
  end.

Definition replace_charref (html5 : entities) (s : str) : str :=
  match s with
  | 35%N :: rest =>
      let num :=
        match rest with
        | c :: digits =>
            if one_of (lit "xX") c then int_of 16 (rstrip_semicolon digits)
            else int_of 10 (rstrip_semicolon rest)
        | [] => 0%N
        end in
      match lookup num invalid_charrefs with
      | Some v => v
      | None =>
          if (between 0xD800 0xDFFF num || N.ltb 0x10FFFF num)%N%bool
          then [0xFFFD%N]
          else if invalid_codepoints num then []
          else [num]
      end
  | _ =>
      match html5 s with
      | Some v => v
      | None =>
          match longest_name html5 s (length s - 1) with
          | Some v => v
          | None => amp :: s
          end
      end
  end.

Definition digit : char -> bool := between 48%N 57%N.
Definition hex_digit : char -> bool :=
  fun c => (between 48 57 c || between 97 102 c || between 65 70 c)%N%bool.

(** [&(#[0-9]+;?|#[xX][0-9a-fA-F]+;?|[^\t\n\f <&#;]{1,32};?)] *)
Definition charref : Re.re :=
  Re.Seq (Re.Chr (just amp))
    (Re.Grp
       (Re.Alt (Re.seqs [Re.Chr (just 35%N); Re.plus digit; Re.opt 59%N])
          (Re.Alt
             (Re.seqs [Re.Chr (just 35%N); Re.Chr (one_of (lit "xX"));
                       Re.plus hex_digit; Re.opt 59%N])
             (Re.seqs [Re.Rep true (none_of [9; 10; 12; 32; 60; 38; 35; 59]%N)
                         1 (Some 32);
                       Re.opt 59%N])))).

Definition unescape (html5 : entities) (s : str) : str :=
  if existsb (N.eqb amp) s
  then Re.sub charref (fun _ g => replace_charref html5 (Re.group1 g)) s
  else s.

End Html.

(** ** The cleaner *)

Definition utterance : Type := str * str.
Definition transcript : Type := list utterance.

(** A Python [dict] from speaker to the list of their texts: keys are unique
    and keep their order of insertion. *)
Definition speakers_dict : Type := list (str * list str).

Fixpoint dict_mem (k : str) (d : speakers_dict) : bool :=
  match d with
  | [] => false
  | (k', _) :: d' => (str_eqb k' k || dict_mem k d')%bool
  end.

(** [d[k] = v]: a new key goes last, an old one keeps its place. *)
Fixpoint dict_set (k : str) (v : list str) (d : speakers_dict) : speakers_dict :=
  match d with
  | [] => [(k, v)]
  | (k', v') :: d' =>
      if str_eqb k' k then (k', v) :: d' else (k', v') :: dict_set k v d'
  end.

(** [d[k].append(x)] for a key that is in [d]. *)
Fixpoint dict_append (k : str) (x : str) (d : speakers_dict) : speakers_dict :=
  match d with
  | [] => []
  | (k', v') :: d' =>
      if str_eqb k' k then (k', v' ++ [x]) :: d'
      else (k', v') :: dict_append k x d'
  end.

(** [enumerate(l, 1)] *)
Definition enumerate1 {A} (l : list A) : list (nat * A) :=
  combine (seq 1 (length l)) l.

Section Cleaner.

Variable html5 : Html.entities.

(** [<p[^>]*data-index=Q[^Q]*Q[^>]*>(.*?)</p>] with [re.DOTALL], where [Q]
    stands for the double quote *)
Definition paragraph_pattern : Re.re :=
  Re.seqs [Re.text (lit "<p"); Re.star (except gt_sign);
           Re.text (lit "data-index=" ++ [dquote]); Re.star (except dquote);
           Re.Chr (just dquote); Re.star (except gt_sign);
           Re.Chr (just gt_sign); Re.Grp (Re.lazy_star any_char);
           Re.text (lit "</p>")].

(** [<span[^>]*data-speaker=QtrueQ[^>]*>.*?<span>([^<]+)</span>] with
    [re.DOTALL] *)
Definition speaker_pattern : Re.re :=
  Re.seqs [Re.text (lit "<span"); Re.star (except gt_sign);
           Re.text (lit "data-speaker=" ++ [dquote] ++ lit "true" ++ [dquote]);
           Re.star (except gt_sign); Re.Chr (just gt_sign);
           Re.lazy_star any_char; Re.text (lit "<span>");
           Re.Grp (Re.plus (except lt_sign)); Re.text (lit "</span>")].

(** [<span[^>]*data-clipped=Q[^Q]*Q[^>]*data-speaker=QfalseQ[^>]*>([^<]+)</span>] *)
Definition dialogue_pattern : Re.re :=
  Re.seqs [Re.text (lit "<span"); Re.star (except gt_sign);
           Re.text (lit "data-clipped=" ++ [dquote]); Re.star (except dquote);
           Re.Chr (just dquote); Re.star (except gt_sign);
           Re.text (lit "data-speaker=" ++ [dquote] ++ lit "false" ++ [dquote]);
           Re.star (except gt_sign); Re.Chr (just gt_sign);
           Re.Grp (Re.plus (except lt_sign)); Re.text (lit "</span>")].

(** The body of the loop over the paragraphs: what one paragraph appends. *)
Definition extract_paragraph (acc : transcript) (paragraph : str) : transcript :=
  match Re.search speaker_pattern paragraph with
  | Some name =>
      let speaker_name := strip name in
      let dialogue_spans := Re.findall dialogue_pattern paragraph in
      if truthy dialogue_spans
      then acc ++ [(speaker_name, join [space] dialogue_spans)]
      else acc
  | None => acc
  end.

Definition extract_speaker_and_text (html_content : str) : transcript :=
  let paragraphs := Re.findall paragraph_pattern html_content in
  fold_left extract_paragraph paragraphs [].

(** [\s+] *)
Definition spaces_pattern : Re.re := Re.plus is_space.
(** [\s+([.,!?;:])] *)
Definition punctuation_pattern : Re.re :=
  Re.Seq (Re.plus is_space) (Re.Grp (Re.Chr (one_of (lit ".,!?;:")))).
(** [<[^>]+>] *)
Definition tag_pattern : Re.re :=
  Re.seqs [Re.Chr (just lt_sign); Re.plus (except gt_sign);
           Re.Chr (just gt_sign)].

Definition clean_text (text : str) : str :=
  let text := Html.unescape html5 text in
  let text := Re.sub spaces_pattern (fun _ _ => [space]) text in
  let text := Re.sub punctuation_pattern (fun _ g => Re.group1 g) text in
  let text := Re.sub tag_pattern (fun _ _ => []) text in
  strip text.

Definition organize_step (speakers : speakers_dict) (u : utterance)
    : speakers_dict :=
  let '(speaker, dialogue) := u in
  let cleaned_dialogue := clean_text dialogue in
  if truthy cleaned_dialogue then
    let speakers :=
      if negb (dict_mem speaker speakers) then dict_set speaker [] speakers
      else speakers in
    dict_append speaker cleaned_dialogue speakers
  else speakers.

Definition organize_by_speaker (t : transcript) : speakers_dict :=
  fold_left organize_step t [].

(** The three header lines and the blank line both renderings start with;
    [stamp] is what [datetime.now().strftime(...)] gave. *)
Definition header (title filename stamp : str) : list str :=
  [title ++ filename; lit "Generated: " ++ stamp; repeat 61%N 80; []].

(** The body of the inner loop of [format_output], over
    [enumerate(dialogues, 1)]. *)
Definition dialogue_step (output_lines : list str) (e : nat * str) : list str :=
  let '(i, dialogue) := e in
  let cleaned_dialogue := clean_text dialogue in
  if truthy cleaned_dialogue
  then output_lines ++ [str_of_nat i ++ lit ". " ++ cleaned_dialogue]
  else output_lines.

(** The body of the loop over [speakers.items()]. *)
Definition speaker_step (output_lines : list str) (e : str * list str)
    : list str :=
  let '(speaker, dialogues) := e in
  let output_lines := output_lines ++ [lit "SPEAKER: " ++ speaker] in
  let output_lines := output_lines ++ [repeat 45%N 40] in
  let output_lines :=
    fold_left dialogue_step (enumerate1 dialogues) output_lines in
  output_lines ++ [[]].

Definition format_output_lines (speakers : speakers_dict)
    (filename stamp : str) : list str :=
  fold_left speaker_step speakers (header (lit "TRANSCRIPT: ") filename stamp).

Definition format_output (speakers : speakers_dict) (filename stamp : str)
    : str :=
  join [newline] (format_output_lines speakers filename stamp).

(** The body of the loop of [format_chronological_output], over
    [enumerate(transcript, 1)]. *)
Definition chronological_step (output_lines : list str)
    (e : nat * utterance) : list str :=
  let '(i, (speaker, dialogue)) := e in
  let cleaned_dialogue := clean_text dialogue in
  if truthy cleaned_dialogue
  then (output_lines
          ++ [str_of_nat i ++ lit ". " ++ speaker ++ lit ": " ++ cleaned_dialogue])
         ++ [[]]
  else output_lines.

Definition format_chronological_lines (t : transcript)
    (filename stamp : str) : list str :=
  fold_left chronological_step (enumerate1 t)
    (header (lit "TRANSCRIPT (CHRONOLOGICAL): ") filename stamp).

Definition format_chronological_output (t : transcript)
    (filename stamp : str) : str :=
  join [newline] (format_chronological_lines t filename stamp).

End Cleaner.

(** ** Files, console and clock *)

Inductive result (A : Type) : Type :=
| Ok (a : A)
| Raise (message : str).
Arguments Ok {A} a.
Arguments Raise {A} message.

(** What the program reads and writes: the input directory in the order a
    scan lists it (a file is its name and its text, or the error that reading
    it raises), the output directory, the lines printed so far and the number
    of times the clock was read. *)
Record world : Type := World {
  input_files : list (str * result str);
  output_files : list (str * str);
  console : list str;
  ticks : nat
}.

(** A computation that changes the world and returns or raises; what it did
    before raising stays done. *)
Definition io (A : Type) : Type := world -> result A * world.

Definition ret {A} (a : A) : io A := fun w => (Ok a, w).

Definition bind {A B} (m : io A) (f : A -> io B) : io B :=
  fun w =>
    match m w with
    | (Ok a, w') => f a w'
    | (Raise e, w') => (Raise e, w')
    end.

Notation "x <- m ;; k" := (bind m (fun x => k))
  (at level 61, m at next level, right associativity).
Notation "m ;; k" := (bind m (fun _ => k))
  (at level 61, right associativity).

(** [try: body  except Exception as e: handler(str(e))] *)
Definition try_except {A} (body : io A) (handler : str -> io A) : io A :=
  fun w =>
    match body w with
    | (Ok a, w') => (Ok a, w')
    | (Raise e, w') => handler e w'
    end.

Definition print (line : str) : io unit :=
  fun w => (Ok tt, World (input_files w) (output_files w)
                         (console w ++ [line]) (ticks w)).

Fixpoint find_file {A} (name : str) (files : list (str * A)) : option A :=
  match files with
  | [] => None
  | (n, a) :: files' => if str_eqb n name then Some a else find_file name files'
  end.

(** [open(path, 'r', encoding='utf-8')] and [f.read()] *)
Definition read_file (name : str) : io str :=
  fun w =>
    match find_file name (input_files w) with
    | Some (Ok content) => (Ok content, w)
    | Some (Raise e) => (Raise e, w)
    | None => (Raise (lit "[Errno 2] No such file or directory: " ++ name), w)
    end.

Fixpoint put_file (name content : str) (files : list (str * str))
    : list (str * str) :=
  match files with
  | [] => [(name, content)]
  | (n, c) :: files' =>
      if str_eqb n name then (n, content) :: files'
      else (n, c) :: put_file name content files'
  end.

(** [open(path, 'w', encoding='utf-8')] and [f.write(content)], in the output
    directory *)
Definition write_file (name content : str) : io unit :=
  fun w => (Ok tt, World (input_files w) (put_file name content (output_files w))
                         (console w) (ticks w)).

(** The world after some more lines were printed. *)
Definition logged (w : world) (lines : list str) : world :=
  World (input_files w) (output_files w) (console w ++ lines) (ticks w).

(** [name.rfind(c)] *)
Fixpoint rfind (c : char) (s : str) : option nat :=
  match s with
  | [] => None
  | d :: s' =>
      match rfind c s' with
      | Some i => Some (S i)
      | None => if N.eqb d c then Some 0 else None
      end
  end.

(** [Path.stem]: the name without its last suffix. *)
Definition stem (name : str) : str :=
  match rfind 46%N name with
  | Some i =>
      if (Nat.ltb 0 i && Nat.ltb i (length name - 1))%bool then firstn i name
      else name
  | None => name
  end.

Definition ends_with (suffix s : str) : bool :=
  (Nat.leb (length suffix) (length s)
   && str_eqb (skipn (length s - length suffix) s) suffix)%bool.

Section Orchestrator.

Variable html5 : Html.entities.
(** The text of [datetime.now().strftime('%Y-%m-%d %H:%M:%S')] at the n-th
    reading of the clock. *)
Variable strftime_now : nat -> str.
Variables input_dir output_dir : str.

Definition now : io str :=
  fun w => (Ok (strftime_now (ticks w)),
            World (input_files w) (output_files w) (console w) (S (ticks w))).

Definition process_file (file_name : str) : io bool :=
  try_except
    (print (lit "Processing: " ++ file_name) ;;
     content <- read_file file_name ;;
     let transcript := extract_speaker_and_text content in
     if negb (truthy transcript) then
       print (lit "  Warning: No transcript data found in " ++ file_name) ;;
       ret false
     else
       let speakers := organize_by_speaker html5 transcript in
       if negb (truthy speakers) then
         print (lit "  Warning: No valid speakers found in " ++ file_name) ;;
         ret false
       else
         stamp <- now ;;
         let output_text := format_output html5 speakers file_name stamp in
         let output_filename := stem file_name ++ lit "_by_speaker.txt" in
         write_file output_filename output_text ;;
         stamp' <- now ;;
         let chronological_text :=
           format_chronological_output html5 transcript file_name stamp' in
         let chronological_filename :=
           stem file_name ++ lit "_chronological.txt" in
         write_file chronological_filename chronological_text ;;
         print ([32; 32; 10003; 32]%N ++ lit "Created: " ++ output_filename) ;;
         print ([32; 32; 10003; 32]%N ++ lit "Created: "
                  ++ chronological_filename) ;;
         print (lit "  Speakers found: " ++ join (lit ", ") (map fst speakers)) ;;
         ret true)
    (fun e =>
       print ([32; 32; 10007; 32]%N ++ lit "Error processing " ++ file_name
                ++ lit ": " ++ e) ;;
       ret false).

(** The loop of [process_all_files] over the files, with its two counters. *)
Fixpoint process_loop (raw_files : list str) (successful failed : nat)
    : io (nat * nat) :=
  match raw_files with
  | [] => ret (successful, failed)
  | file_name :: rest =>
      ok <- process_file file_name ;;
      print [] ;;
      if ok then process_loop rest (successful + 1) failed
      else process_loop rest successful (failed + 1)
  end.

(** [input_dir.glob(STAR.raw)] without the example file *)
Definition raw_files (w : world) : list str :=
  filter (fun name => negb (str_eqb name (lit "example-meeting.raw")))
    (filter (ends_with (lit ".raw")) (map fst (input_files w))).


End Orchestrator.

(** ** The vocabulary of the specification *)

(** A statement that holds whatever the table of named character references
    holds. *)
Definition for_every_table (P : Html.entities -> Prop) : Prop :=
  forall html5 : Html.entities, P html5.

Definition chronological_line (i : nat) (speaker cleaned : str) : str :=
  str_of_nat i ++ lit ". " ++ speaker ++ lit ": " ++ cleaned.

Definition group_line (i : nat) (cleaned : str) : str :=
  str_of_nat i ++ lit ". " ++ cleaned.

Definition speaker_line (speaker : str) : str := lit "SPEAKER: " ++ speaker.

Section Vocabulary.

Variable html5 : Html.entities.

(** The utterances with their text cleaned, and those of them a rendering
    keeps: the ones whose cleaned text is not empty. *)
Definition cleaned (t : transcript) : list utterance :=
  map (fun u => (fst u, clean_text html5 (snd u))) t.

Definition kept (t : transcript) : list utterance :=
  filter (fun u => truthy (snd u)) (cleaned t).

(** The chronological rendering as the specification words it: the running
    index counts the emitted lines only. *)
Definition chronological_lines_renumbered (t : transcript)
    (filename stamp : str) : list str :=
  header (lit "TRANSCRIPT (CHRONOLOGICAL): ") filename stamp
    ++ flat_map (fun e => [chronological_line (fst e) (fst (snd e)) (snd (snd e)); []])
         (enumerate1 (kept t)).

(** The grouped rendering as the specification words it: every text of a
    group is emitted, numbered 1, 2, 3, ... *)
Definition grouped_lines_all_numbered (speakers : speakers_dict)
    (filename stamp : str) : list str :=
  header (lit "TRANSCRIPT: ") filename stamp
    ++ flat_map (fun e => [speaker_line (fst e); repeat 45%N 40]
                            ++ map (fun d => group_line (fst d) (snd d))
                                 (enumerate1 (snd e))
                            ++ [[]])
         speakers.

(** What one segment contributes to the transcript. *)
Definition contribution (paragraph : str) : transcript :=
  extract_paragraph [] paragraph.

End Vocabulary.

(** What [organize_by_speaker] does to the dictionary for one kept text. *)
Definition dict_add (speaker cleaned : str) (d : speakers_dict) : speakers_dict :=
  dict_append speaker cleaned
    (if negb (dict_mem speaker d) then dict_set speaker [] d else d).

(** [d.get(k, [])] *)
Fixpoint dict_get (k : str) (d : speakers_dict) : list str :=
  match d with
  | [] => []
  | (k', v) :: d' => if str_eqb k' k then v else dict_get k d'
  end.

(** The (speaker, text) pairs a dictionary of groups holds, group by group. *)
Definition pairs_of (d : speakers_dict) : list utterance :=
  flat_map (fun e => map (pair (fst e)) (snd e)) d.

(** The distinct elements of a list, in the order of their first
    appearance. *)
Fixpoint first_appearances (l : list str) : list str :=
  match l with
  | [] => []
  | x :: l' => x :: filter (fun y => negb (str_eqb x y)) (first_appearances l')
  end.

(** A tag as the cleaner's pattern reads it: an opening angle bracket, one or
    more characters other than a closing one, a closing angle bracket. *)
Definition is_tag (m : str) : Prop :=
  exists body, m = lt_sign :: body ++ [gt_sign] /\ body <> [] /\ ~ In gt_sign body.

Definition has_tag (s : str) : Prop :=
  exists before m after, s = before ++ m ++ after /\ is_tag m.

(** [x] stands somewhere in [s]. *)
Definition occurs_in (x s : str) : Prop := exists a b, s = a ++ x ++ b.

(** ** Sample inputs *)

(** A table with no named character reference at all. *)
Definition no_names : Html.entities := fun _ => None.

Definition attribute (name value : string) : str :=
  [space] ++ lit name ++ lit "=" ++ [dquote] ++ lit value ++ [dquote].

Definition speaker_span (name : string) : str :=
  lit "<span" ++ attribute "data-speaker" "true" ++ lit ">"
    ++ lit "<span>" ++ lit name ++ lit "</span></span>".

Definition fragment_span (text : string) : str :=
  lit "<span" ++ attribute "data-clipped" "false"
    ++ attribute "data-speaker" "false" ++ lit ">" ++ lit text ++ lit "</span>".

Definition segment (index : string) (inner : str) : str :=
  lit "<p" ++ attribute "data-index" index ++ lit ">" ++ inner ++ lit "</p>".

(** The document of the specification's smoke test: one segment, speaker
    Alice, fragments Hel, lo, world. *)
Definition alice_document : str :=
  segment "0" (speaker_span "Alice" ++ fragment_span "Hel" ++ fragment_span "lo"
                 ++ fragment_span "world").

(** A segment whose speaker span holds one space. *)
Definition blank_speaker_paragraph : str :=
  speaker_span " " ++ fragment_span "hi".

Definition blank_speaker_document : str := segment "0" blank_speaker_paragraph.

(** A document whose only fragment is a space: one utterance, no group. *)
Definition blank_text_document : str :=
  segment "0" (speaker_span "Ann" ++ fragment_span " ").

(** The transcript on which the two numberings of the chronological rendering
    part: its first utterance is a lone space. *)
Definition blank_then_hi : transcript :=
  [(lit "Ann", lit " "); (lit "Bob", lit "hi")].

(** A transcript whose first text is a character reference to an ampersand
    followed by [#32;]: cleaned once it is the text of a reference to a
    space, cleaned twice it is empty. *)
Definition escaped_space_then_hi : transcript :=
  [(lit "Ann", lit "&#38;#32;"); (lit "Ann", lit "hi")].

(** A speaker name with a character reference and a run of spaces in it. *)
Definition tom_and_jerry : transcript := [(lit "Tom &amp;  Jerry", lit "hi")].

(** Two speakers taking turns, in plain text. *)
Definition plain_talk : transcript :=
  [(lit "Ann", lit "hello  there ."); (lit "Bob", lit "hi");
   (lit "Ann", lit "how are you ?")].

Definition one_file (name : string) (content : str) : world :=
  World [(lit name, Ok content)] [] [] 0.


(** ** The steps of the cleaner, and the texts they leave alone *)

(** The three substitutions of [clean_text], each on its own:
    [re.sub(tag, '', s)], *)
Definition strip_tags (s : str) : str := Re.sub tag_pattern (fun _ _ => []) s.

Definition punctuation : char -> bool := one_of (lit ".,!?;:").

(** [re.sub('\s+', ' ', s)], *)
Definition collapse_spaces (s : str) : str :=
  Re.sub spaces_pattern (fun _ _ => [space]) s.

(** and [re.sub('\s+([.,!?;:])', '\1', s)]. *)
Definition tidy_punctuation (s : str) : str :=
  Re.sub punctuation_pattern (fun _ g => Re.group1 g) s.

(** [R] holds between every character and the next. *)
Fixpoint chain (R : char -> char -> Prop) (s : str) : Prop :=
  match s with
  | c :: s' => match s' with d :: _ => R c d | [] => True end /\ chain R s'
  | [] => True
  end.

(** Every whitespace character is a space, and none follows another. *)
Definition single_spaces (s : str) : Prop :=
  Forall (fun c => is_space c = true -> c = space) s
  /\ chain (fun c d => is_space c = true -> is_space d = false) s.

Definition no_space_before_punctuation (s : str) : Prop :=
  chain (fun c d => is_space c = true -> punctuation d = false) s.

(** Empty, or starting with something other than whitespace. *)
Definition starts_clean (s : str) : Prop :=
  match s with d :: _ => is_space d = false | [] => True end.

(** Empty, or ending with something other than whitespace. *)
Definition ends_clean (s : str) : Prop := starts_clean (rev s).

(** The names of the two files [process_file] writes for an input file. *)
Definition by_speaker_name (file_name : str) : str :=
  stem file_name ++ lit "_by_speaker.txt".

Definition chronological_name (file_name : str) : str :=
  stem file_name ++ lit "_chronological.txt".

(** * Properties *)

(** ** Loops that append *)

Lemma str_eqb_eq (a b : str) : str_eqb a b = true <-> a = b.
Proof.
  unfold str_eqb. destruct (list_eq_dec N.eq_dec a b); split; congruence.
Qed.

Lemma str_eqb_refl (a : str) : str_eqb a a = true.
Proof. now apply str_eqb_eq. Qed.

Lemma str_eqb_neq (a b : str) : str_eqb a b = false <-> a <> b.
Proof.
  unfold str_eqb. destruct (list_eq_dec N.eq_dec a b); split; congruence.
Qed.

Lemma truthy_true {A} (l : list A) : truthy l = true <-> l <> [].
Proof. destruct l; simpl; split; congruence. Qed.

Lemma truthy_false {A} (l : list A) : truthy l = false <-> l = [].
Proof. destruct l; simpl; split; congruence. Qed.

(** A loop whose body only appends to its accumulator yields the
    accumulator followed by what each round appends, in order. *)
Lemma fold_left_append {A B} (step : list B -> A -> list B) (g : A -> list B) :
  (forall out e, step out e = out ++ g e) ->
  forall l init, fold_left step l init = init ++ flat_map g l.
Proof.
  intros Hstep l. induction l as [|e l IH]; intros init; simpl.
  - now rewrite app_nil_r.
  - rewrite IH, Hstep, <- app_assoc. reflexivity.
Qed.

Lemma enumerate1_length {A} (l : list A) : length (enumerate1 l) = length l.
Proof.
  unfold enumerate1. rewrite length_combine, length_seq. apply Nat.min_id.
Qed.

Lemma combine_seq_nth {A} (l : list A) (start k i : nat) (x : A) :
  nth_error (combine (seq start (length l)) l) k = Some (i, x) <->
  i = start + k /\ nth_error l k = Some x.
Proof.
  revert start k. induction l as [|y l IH]; intros start k; simpl.
  - destruct k; simpl; split; intros H; try discriminate; destruct H; discriminate.
  - destruct k; simpl.
    + split.
      * intros H. inversion H; subst. split; [lia | reflexivity].
      * intros [-> H]. inversion H; subst. f_equal. f_equal. lia.
    + rewrite IH. split; intros [-> H]; split; auto; lia.
Qed.

(** [enumerate(l, 1)] pairs each element with its position in [l], counted
    from 1. *)
Lemma enumerate1_nth {A} (l : list A) (k i : nat) (x : A) :
  nth_error (enumerate1 l) k = Some (i, x) <-> i = k + 1 /\ nth_error l k = Some x.
Proof.
  unfold enumerate1. rewrite combine_seq_nth. split; intros [-> H]; split; auto; lia.
Qed.

Lemma flat_map_if {A B} (b : A -> bool) (h : A -> list B) (l : list A) :
  flat_map (fun x => if b x then h x else []) l = flat_map h (filter b l).
Proof.
  induction l as [|x l IH]; simpl; [reflexivity|].
  destruct (b x); simpl; now rewrite IH.
Qed.

Lemma combine_map_r {A B C} (f : B -> C) (l : list A) (l' : list B) :
  combine l (map f l') = map (fun e => (fst e, f (snd e))) (combine l l').
Proof.
  revert l'. induction l as [|x l IH]; intros [|y l']; simpl; try reflexivity.
  now rewrite IH.
Qed.

Lemma enumerate1_map {A B} (f : A -> B) (l : list A) :
  enumerate1 (map f l) = map (fun e => (fst e, f (snd e))) (enumerate1 l).
Proof. unfold enumerate1. now rewrite length_map, combine_map_r. Qed.

Lemma flat_map_map {A B C} (f : A -> B) (h : B -> list C) (l : list A) :
  flat_map h (map f l) = flat_map (fun x => h (f x)) l.
Proof. induction l as [|x l IH]; simpl; [reflexivity | now rewrite IH]. Qed.

Lemma filter_map_swap {A B} (f : A -> B) (b : B -> bool) (l : list A) :
  filter b (map f l) = map f (filter (fun x => b (f x)) l).
Proof.
  induction l as [|x l IH]; simpl; [reflexivity|].
  destruct (b (f x)); simpl; now rewrite IH.
Qed.

Lemma flat_map_singleton {A B} (h : A -> B) (l : list A) :
  flat_map (fun x => [h x]) l = map h l.
Proof. induction l as [|x l IH]; simpl; [reflexivity | now rewrite IH]. Qed.

(** ** The renderers *)

Section Rendering.

Variable html5 : Html.entities.

Lemma chronological_step_appends (out : list str) (e : nat * utterance) :
  chronological_step html5 out e =
  out ++ (if truthy (clean_text html5 (snd (snd e)))
          then [chronological_line (fst e) (fst (snd e))
                  (clean_text html5 (snd (snd e))); []]
          else []).
Proof.
  destruct e as [i [speaker dialogue]]; simpl.
  destruct (truthy (clean_text html5 dialogue)).
  - now rewrite <- app_assoc.
  - now rewrite app_nil_r.
Qed.

Lemma chronological_lines_flat_map (t : transcript) (filename stamp : str) :
  format_chronological_lines html5 t filename stamp =
  header (lit "TRANSCRIPT (CHRONOLOGICAL): ") filename stamp
    ++ flat_map (fun e => if truthy (clean_text html5 (snd (snd e)))
                          then [chronological_line (fst e) (fst (snd e))
                                  (clean_text html5 (snd (snd e))); []]
                          else [])
         (enumerate1 t).
Proof.
  unfold format_chronological_lines.
  now rewrite (fold_left_append _ _ chronological_step_appends).
Qed.

(** C1, as the code has it: the chronological rendering numbers every
    utterance of the transcript by its position, counted from 1, and then
    emits those whose cleaned text is not empty; an emitted line keeps the
    number of its utterance, so a skipped utterance leaves a gap. *)
Theorem chronological_index_is_transcript_position
    (t : transcript) (filename stamp : str) :
  format_chronological_lines html5 t filename stamp =
  header (lit "TRANSCRIPT (CHRONOLOGICAL): ") filename stamp
    ++ flat_map (fun e => [chronological_line (fst e) (fst (snd e)) (snd (snd e)); []])
         (filter (fun e => truthy (snd (snd e))) (enumerate1 (cleaned html5 t)))
  /\ forall (k : nat) (speaker dialogue : str),
       nth_error t k = Some (speaker, dialogue) ->
       clean_text html5 dialogue <> [] ->
       In (chronological_line (k + 1) speaker (clean_text html5 dialogue))
          (format_chronological_lines html5 t filename stamp).
Proof.
  split.
  - rewrite chronological_lines_flat_map.
    f_equal. unfold cleaned. rewrite enumerate1_map, filter_map_swap, flat_map_map.
    simpl. now rewrite <- flat_map_if.
  - intros k speaker dialogue Hk Hne.
    rewrite chronological_lines_flat_map. apply in_or_app. right.
    apply in_flat_map. exists (k + 1, (speaker, dialogue)). split.
    + apply (nth_error_In _ k). now apply enumerate1_nth.
    + simpl. apply truthy_true in Hne. rewrite Hne. now left.
Qed.

Lemma dialogue_step_appends (out : list str) (e : nat * str) :
  dialogue_step html5 out e =
  out ++ (if truthy (clean_text html5 (snd e))
          then [group_line (fst e) (clean_text html5 (snd e))] else []).
Proof.
  destruct e as [i dialogue]; simpl.
  destruct (truthy (clean_text html5 dialogue)); [reflexivity|].
  now rewrite app_nil_r.
Qed.

Lemma speaker_step_appends (out : list str) (e : str * list str) :
  speaker_step html5 out e =
  out ++ ([speaker_line (fst e); repeat 45%N 40]
            ++ map (fun d => group_line (fst d) (snd d))
                 (filter (fun d => truthy (snd d))
                    (enumerate1 (map (clean_text html5) (snd e))))
            ++ [[]]).
Proof.
  destruct e as [speaker dialogues]; unfold speaker_step.
  rewrite (fold_left_append _ _ dialogue_step_appends).
  rewrite enumerate1_map, filter_map_swap, map_map. simpl.
  rewrite flat_map_if, flat_map_singleton.
  now rewrite <- !app_assoc.
Qed.

(** C3, as the code has it: the grouped rendering cleans every text of a
    group once more, numbers the texts of the group by their position in it,
    counted from 1, and emits those that are still not empty; a text that is
    empty when cleaned again is dropped and its number is skipped. *)
Theorem grouped_index_is_group_position
    (speakers : speakers_dict) (filename stamp : str) :
  format_output_lines html5 speakers filename stamp =
  header (lit "TRANSCRIPT: ") filename stamp
    ++ flat_map (fun e => [speaker_line (fst e); repeat 45%N 40]
                            ++ map (fun d => group_line (fst d) (snd d))
                                 (filter (fun d => truthy (snd d))
                                    (enumerate1 (map (clean_text html5) (snd e))))
                            ++ [[]])
         speakers
  /\ forall (speaker : str) (dialogues : list str) (k : nat) (dialogue : str),
       In (speaker, dialogues) speakers ->
       nth_error dialogues k = Some dialogue ->
       clean_text html5 dialogue <> [] ->
       In (group_line (k + 1) (clean_text html5 dialogue))
          (format_output_lines html5 speakers filename stamp).
Proof.
  unfold format_output_lines.
  rewrite (fold_left_append _ _ speaker_step_appends).
  split; [reflexivity|].
  intros speaker dialogues k dialogue Hin Hk Hne.
  apply in_or_app. right. apply in_flat_map. exists (speaker, dialogues).
  split; [assumption|]. simpl. right. right. apply in_or_app. left.
  apply in_map_iff. exists (k + 1, clean_text html5 dialogue).
  split; [reflexivity|]. apply filter_In. split.
  - apply (nth_error_In _ k). apply enumerate1_nth. split; [reflexivity|].
    now apply map_nth_error.
  - now apply truthy_true.
Qed.

Lemma speaker_line_rendered (speakers : speakers_dict) (filename stamp speaker : str) :
  In speaker (map fst speakers) ->
  In (speaker_line speaker) (format_output_lines html5 speakers filename stamp).
Proof.
  intros Hin. unfold format_output_lines.
  rewrite (fold_left_append _ _ speaker_step_appends).
  apply in_or_app. right. apply in_flat_map.
  apply in_map_iff in Hin. destruct Hin as [e [<- He]].
  exists e. split; [assumption | now left].
Qed.

End Rendering.

(** C1 fails as stated: after one skipped utterance the first emitted line
    carries the number 2, where the specification's numbering says 1. *)
Lemma chronological_index_counts_skipped :
  for_every_table (fun html5 =>
    format_chronological_lines html5 blank_then_hi (lit "m.raw") (lit "now")
      = header (lit "TRANSCRIPT (CHRONOLOGICAL): ") (lit "m.raw") (lit "now")
          ++ [lit "2. Bob: hi"; []]
    /\ chronological_lines_renumbered html5 blank_then_hi (lit "m.raw") (lit "now")
      = header (lit "TRANSCRIPT (CHRONOLOGICAL): ") (lit "m.raw") (lit "now")
          ++ [lit "1. Bob: hi"; []]
    /\ format_chronological_lines html5 blank_then_hi (lit "m.raw") (lit "now")
      <> chronological_lines_renumbered html5 blank_then_hi (lit "m.raw") (lit "now")).
Proof.
  intros html5. repeat split; try (vm_compute; reflexivity).
  vm_compute. discriminate.
Qed.

(** C3 fails as stated: the group of Ann holds two texts, the rendering emits
    one line for it, numbered 2. *)
Lemma grouped_rendering_drops_and_skips :
  for_every_table (fun html5 =>
    organize_by_speaker html5 escaped_space_then_hi
      = [(lit "Ann", [lit "&#32;"; lit "hi"])]
    /\ format_output_lines html5
         (organize_by_speaker html5 escaped_space_then_hi) (lit "m.raw") (lit "now")
      = header (lit "TRANSCRIPT: ") (lit "m.raw") (lit "now")
          ++ [lit "SPEAKER: Ann"; repeat 45%N 40; lit "2. hi"; []]
    /\ format_output_lines html5
         (organize_by_speaker html5 escaped_space_then_hi) (lit "m.raw") (lit "now")
      <> grouped_lines_all_numbered
           (organize_by_speaker html5 escaped_space_then_hi) (lit "m.raw") (lit "now")).
Proof.
  intros html5. repeat split; try (vm_compute; reflexivity).
  vm_compute. discriminate.
Qed.

(** ** The cleaner on the specification's examples *)

(** C7: [clean("word .")] is ["word."] and [clean("word,  next")] is
    ["word, next"]. *)
Theorem clean_text_punctuation_examples (html5 : Html.entities) :
  clean_text html5 (lit "word .") = lit "word."
  /\ clean_text html5 (lit "word,  next") = lit "word, next".
Proof. split; vm_compute; reflexivity. Qed.

(** C2 fails as stated: a tag between a word and a full stop shields the
    space before the full stop in the first cleaning, and the second cleaning
    removes it. *)
Lemma clean_text_not_idempotent :
  for_every_table (fun html5 =>
    clean_text html5 (lit "a <b> .") = lit "a ."
    /\ clean_text html5 (clean_text html5 (lit "a <b> .")) = lit "a."
    /\ clean_text html5 (clean_text html5 (lit "a <b> ."))
       <> clean_text html5 (lit "a <b> .")).
Proof.
  intros html5. repeat split; try (vm_compute; reflexivity).
  vm_compute. discriminate.
Qed.

(** A character reference to an ampersand in front of the rest of a
    reference is decoded in two rounds. *)
Example clean_text_decodes_twice (html5 : Html.entities) :
  clean_text html5 (lit "&#38;#60;") = lit "&#60;"
  /\ clean_text html5 (clean_text html5 (lit "&#38;#60;")) = lit "<".
Proof. split; vm_compute; reflexivity. Qed.

(** ** The extractor *)

Lemma extract_paragraph_appends (acc : transcript) (paragraph : str) :
  extract_paragraph acc paragraph = acc ++ contribution paragraph.
Proof.
  unfold contribution, extract_paragraph.
  destruct (Re.search speaker_pattern paragraph); [|now rewrite app_nil_r].
  destruct (truthy _); [reflexivity | now rewrite app_nil_r].
Qed.

Lemma extract_flat_map (html_content : str) :
  extract_speaker_and_text html_content
  = flat_map contribution (Re.findall paragraph_pattern html_content).
Proof.
  unfold extract_speaker_and_text.
  now rewrite (fold_left_append _ _ extract_paragraph_appends).
Qed.

(** C5: the transcript is what the segments contribute, in the order of the
    segments; a segment contributes one utterance when the speaker pattern
    matches in it and the dialogue pattern matches at least once, and the
    text of the utterance is then the dialogue fragments joined by single
    spaces; otherwise it contributes nothing. *)
Theorem extract_is_segment_contributions (html_content : str) :
  extract_speaker_and_text html_content
    = flat_map contribution (Re.findall paragraph_pattern html_content)
  /\ forall paragraph : str,
       ((exists name,
           Re.search speaker_pattern paragraph = Some name
           /\ Re.findall dialogue_pattern paragraph <> []
           /\ contribution paragraph
              = [(strip name,
                  join [space] (Re.findall dialogue_pattern paragraph))])
        \/ ((Re.search speaker_pattern paragraph = None
             \/ Re.findall dialogue_pattern paragraph = [])
            /\ contribution paragraph = [])).
Proof.
  split.
  - apply extract_flat_map.
  - intros paragraph. unfold contribution, extract_paragraph.
    destruct (Re.search speaker_pattern paragraph) as [name|] eqn:Hs.
    + destruct (Re.findall dialogue_pattern paragraph) as [|f fs] eqn:Hf.
      * right. split; [now right | reflexivity].
      * left. exists name. split; [reflexivity|]. split; [discriminate | reflexivity].
    + right. split; [now left | reflexivity].
Qed.

Example extract_alice :
  extract_speaker_and_text alice_document = [(lit "Alice", lit "Hel lo world")].
Proof. vm_compute. reflexivity. Qed.

(** ** Grouping by speaker *)

Lemma dict_add_nil (speaker cleaned : str) :
  dict_add speaker cleaned [] = [(speaker, [cleaned])].
Proof. unfold dict_add. simpl. now rewrite str_eqb_refl. Qed.

Lemma dict_add_cons (speaker cleaned k : str) (v : list str) (d : speakers_dict) :
  dict_add speaker cleaned ((k, v) :: d) =
  if str_eqb k speaker then (k, v ++ [cleaned]) :: d
  else (k, v) :: dict_add speaker cleaned d.
Proof.
  unfold dict_add. simpl. destruct (str_eqb k speaker) eqn:E; simpl.
  - now rewrite E.
  - destruct (dict_mem speaker d); simpl; now rewrite E.
Qed.

Lemma dict_mem_In (k : str) (d : speakers_dict) :
  dict_mem k d = true <-> In k (map fst d).
Proof.
  induction d as [|[k' v] d IH]; simpl.
  - split; [discriminate | tauto].
  - rewrite orb_true_iff, str_eqb_eq, IH. tauto.
Qed.

Lemma dict_mem_add (k speaker cleaned : str) (d : speakers_dict) :
  dict_mem k (dict_add speaker cleaned d) = (dict_mem k d || str_eqb speaker k)%bool.
Proof.
  induction d as [|[k' v] d IH].
  - rewrite dict_add_nil. simpl. now rewrite orb_false_r.
  - rewrite dict_add_cons. destruct (str_eqb k' speaker) eqn:E; simpl.
    + apply str_eqb_eq in E. subst k'.
      destruct (str_eqb speaker k); simpl; [reflexivity | now rewrite orb_false_r].
    + rewrite IH. now rewrite orb_assoc.
Qed.

Lemma keys_dict_add (speaker cleaned : str) (d : speakers_dict) :
  map fst (dict_add speaker cleaned d) =
  if dict_mem speaker d then map fst d else map fst d ++ [speaker].
Proof.
  induction d as [|[k v] d IH].
  - now rewrite dict_add_nil.
  - rewrite dict_add_cons. simpl. destruct (str_eqb k speaker) eqn:E; simpl.
    + reflexivity.
    + rewrite IH. now destruct (dict_mem speaker d).
Qed.

Lemma dict_get_add (k speaker cleaned : str) (d : speakers_dict) :
  dict_get k (dict_add speaker cleaned d) =
  if str_eqb speaker k then dict_get k d ++ [cleaned] else dict_get k d.
Proof.
  induction d as [|[k' v] d IH].
  - rewrite dict_add_nil. simpl. now destruct (str_eqb speaker k).
  - rewrite dict_add_cons. destruct (str_eqb k' speaker) eqn:E; simpl.
    + apply str_eqb_eq in E. subst k'. now destruct (str_eqb speaker k).
    + destruct (str_eqb k' k) eqn:E'; [|exact IH].
      apply str_eqb_eq in E'. subst k'.
      destruct (str_eqb speaker k) eqn:E''; [|reflexivity].
      apply str_eqb_eq in E''. subst. now rewrite str_eqb_refl in E.
Qed.

Lemma pairs_dict_add (speaker cleaned : str) (d : speakers_dict) :
  Permutation (pairs_of (dict_add speaker cleaned d))
              (pairs_of d ++ [(speaker, cleaned)]).
Proof.
  induction d as [|[k v] d IH].
  - rewrite dict_add_nil. apply Permutation_refl.
  - rewrite dict_add_cons. destruct (str_eqb k speaker) eqn:E.
    + apply str_eqb_eq in E. subst k. unfold pairs_of. simpl.
      rewrite map_app, <- !app_assoc. simpl.
      apply Permutation_app_head. apply Permutation_cons_append.
    + unfold pairs_of in *. simpl. rewrite <- app_assoc.
      now apply Permutation_app_head.
Qed.

Section Grouping.

Variable html5 : Html.entities.

Lemma organize_step_add (d : speakers_dict) (u : utterance) :
  organize_step html5 d u =
  if truthy (clean_text html5 (snd u))
  then dict_add (fst u) (clean_text html5 (snd u)) d else d.
Proof. now destruct u. Qed.

Lemma organize_fold (t : transcript) (d : speakers_dict) :
  fold_left (organize_step html5) t d =
  fold_left (fun d u => dict_add (fst u) (snd u) d) (kept html5 t) d.
Proof.
  revert d. induction t as [|u t IH]; intros d; [reflexivity|].
  simpl. rewrite IH, organize_step_add. unfold kept. simpl.
  now destruct (truthy (clean_text html5 (snd u))).
Qed.

End Grouping.

Lemma pairs_fold (l : list utterance) (d : speakers_dict) :
  Permutation (pairs_of (fold_left (fun d u => dict_add (fst u) (snd u) d) l d))
              (pairs_of d ++ l).
Proof.
  revert d. induction l as [|u l IH]; intros d; simpl.
  - now rewrite app_nil_r.
  - rewrite IH. rewrite pairs_dict_add, <- app_assoc. simpl. now destruct u.
Qed.

Lemma dict_get_fold (k : str) (l : list utterance) (d : speakers_dict) :
  dict_get k (fold_left (fun d u => dict_add (fst u) (snd u) d) l d) =
  dict_get k d ++ map snd (filter (fun u => str_eqb (fst u) k) l).
Proof.
  revert d. induction l as [|u l IH]; intros d; simpl.
  - now rewrite app_nil_r.
  - rewrite IH, dict_get_add. destruct (str_eqb (fst u) k); simpl.
    + now rewrite <- app_assoc.
    + reflexivity.
Qed.

Lemma filter_filter {A} (f g : A -> bool) (l : list A) :
  filter f (filter g l) = filter (fun x => (g x && f x)%bool) l.
Proof.
  induction l as [|x l IH]; simpl; [reflexivity|].
  destruct (g x); simpl; [destruct (f x)|]; now rewrite IH.
Qed.

Lemma keys_fold (l : list utterance) (d : speakers_dict) :
  map fst (fold_left (fun d u => dict_add (fst u) (snd u) d) l d) =
  map fst d ++ filter (fun k => negb (dict_mem k d)) (first_appearances (map fst l)).
Proof.
  revert d. induction l as [|u l IH]; intros d; simpl.
  - now rewrite app_nil_r.
  - rewrite IH, keys_dict_add, filter_filter.
    rewrite (filter_ext _ (fun k => negb (str_eqb (fst u) k) && negb (dict_mem k d))%bool).
    + destruct (dict_mem (fst u) d); simpl; [reflexivity | now rewrite <- app_assoc].
    + intros k. rewrite dict_mem_add. now destruct (dict_mem k d), (str_eqb (fst u) k).
Qed.

Lemma first_appearances_NoDup (l : list str) : NoDup (first_appearances l).
Proof.
  induction l as [|x l IH]; simpl; constructor.
  - rewrite filter_In. intros [_ H]. now rewrite str_eqb_refl in H.
  - now apply NoDup_filter.
Qed.

Lemma dict_get_In (k : str) (v : list str) (d : speakers_dict) :
  NoDup (map fst d) -> In (k, v) d -> dict_get k d = v.
Proof.
  induction d as [|[k' v'] d IH]; simpl; intros Hnd Hin; [contradiction|].
  inversion Hnd as [|? ? Hnotin Hnd']; subst.
  destruct Hin as [Heq | Hin].
  - inversion Heq; subst. now rewrite str_eqb_refl.
  - destruct (str_eqb k' k) eqn:E; [|now apply IH].
    apply str_eqb_eq in E. subst k'. exfalso. apply Hnotin.
    change k with (fst (k, v)). now apply in_map.
Qed.

Lemma first_appearances_In (x : str) (l : list str) :
  In x (first_appearances l) <-> In x l.
Proof.
  induction l as [|y l IH]; simpl; [tauto|].
  rewrite filter_In, IH, negb_true_iff, str_eqb_neq.
  destruct (list_eq_dec N.eq_dec y x); tauto.
Qed.

Section Groups.

Variable html5 : Html.entities.
Variable t : transcript.

Lemma organize_pairs :
  Permutation (pairs_of (organize_by_speaker html5 t)) (kept html5 t).
Proof.
  unfold organize_by_speaker. rewrite organize_fold.
  exact (pairs_fold (kept html5 t) []).
Qed.

Lemma organize_keys :
  map fst (organize_by_speaker html5 t)
  = first_appearances (map fst (kept html5 t)).
Proof.
  unfold organize_by_speaker. rewrite organize_fold, keys_fold. simpl.
  induction (first_appearances _) as [|x l IH]; simpl; congruence.
Qed.

Lemma organize_keys_NoDup : NoDup (map fst (organize_by_speaker html5 t)).
Proof. rewrite organize_keys. apply first_appearances_NoDup. Qed.

Lemma organize_group (speaker : str) (texts : list str) :
  In (speaker, texts) (organize_by_speaker html5 t) ->
  texts = map snd (filter (fun u => str_eqb (fst u) speaker) (kept html5 t)).
Proof.
  intros Hin. rewrite <- (@dict_get_In _ _ _ organize_keys_NoDup Hin).
  unfold organize_by_speaker. now rewrite organize_fold, dict_get_fold.
Qed.

Lemma organize_text_kept (speaker : str) (texts : list str) (x : str) :
  In (speaker, texts) (organize_by_speaker html5 t) -> In x texts ->
  In (speaker, x) (kept html5 t).
Proof.
  intros Hin Hx. apply (Permutation_in _ organize_pairs).
  unfold pairs_of. apply in_flat_map.
  exists (speaker, texts). split; [assumption|]. simpl. now apply in_map.
Qed.

Lemma kept_In (speaker x : str) :
  In (speaker, x) (kept html5 t) <->
  x <> [] /\ exists dialogue, In (speaker, dialogue) t /\ x = clean_text html5 dialogue.
Proof.
  unfold kept, cleaned. rewrite filter_In, in_map_iff. simpl. rewrite truthy_true.
  split.
  - intros [[[sp dlg] [Heq Hin]] Hx]. simpl in Heq. inversion Heq; subst.
    split; [assumption | now exists dlg].
  - intros [Hx [dlg [Hin ->]]]. split; [|assumption]. now exists (speaker, dlg).
Qed.

End Groups.

(** C4: the groups hold exactly the kept utterances (as a multiset of
    speaker and cleaned text), the speakers stand in the order of their first
    appearance, each once, every group lists its texts in the order of the
    transcript, and no stored text is empty. *)
Theorem organize_by_speaker_complete_and_ordered
    (html5 : Html.entities) (t : transcript) :
  Permutation (pairs_of (organize_by_speaker html5 t)) (kept html5 t)
  /\ map fst (organize_by_speaker html5 t)
     = first_appearances (map fst (kept html5 t))
  /\ NoDup (map fst (organize_by_speaker html5 t))
  /\ (forall speaker texts,
        In (speaker, texts) (organize_by_speaker html5 t) ->
        texts = map snd (filter (fun u => str_eqb (fst u) speaker) (kept html5 t)))
  /\ (forall speaker texts x,
        In (speaker, texts) (organize_by_speaker html5 t) -> In x texts ->
        x <> [] /\ exists dialogue,
          In (speaker, dialogue) t /\ x = clean_text html5 dialogue).
Proof.
  split; [apply organize_pairs|].
  split; [apply organize_keys|].
  split; [apply organize_keys_NoDup|].
  split; [apply organize_group|].
  intros speaker texts x Hin Hx. apply kept_In.
  eapply organize_text_kept; eassumption.
Qed.

(** ** Speaker names *)

Lemma join_occurs (sep l : str) (ls : list str) :
  In l ls -> occurs_in l (join sep ls).
Proof.
  induction ls as [|p ps IH]; [contradiction|]. intros [-> | Hin].
  - destruct ps as [|q ps].
    + exists [], []. simpl. now rewrite app_nil_r.
    + exists [], (sep ++ join sep (q :: ps)). reflexivity.
  - destruct ps as [|q ps]; [contradiction|].
    destruct (IH Hin) as [a [b Hab]].
    exists (p ++ sep ++ a), b.
    change (join sep (p :: q :: ps)) with (p ++ sep ++ join sep (q :: ps)).
    rewrite Hab. now rewrite <- !app_assoc.
Qed.

Lemma enumerate1_In {A} (l : list A) (x : A) :
  In x l -> exists i, In (i, x) (enumerate1 l).
Proof.
  intros Hin. apply In_nth_error in Hin. destruct Hin as [k Hk].
  exists (k + 1). apply (nth_error_In _ k). now apply enumerate1_nth.
Qed.

Section SpeakerNames.

Variable html5 : Html.entities.

Lemma kept_speaker_is_key (t : transcript) (speaker dialogue : str) :
  In (speaker, dialogue) t -> clean_text html5 dialogue <> [] ->
  In speaker (map fst (organize_by_speaker html5 t)).
Proof.
  intros Hin Hne. rewrite organize_keys, first_appearances_In.
  change speaker with (fst (speaker, clean_text html5 dialogue)).
  apply in_map. apply kept_In. split; [assumption | now exists dialogue].
Qed.

Lemma chronological_line_rendered (t : transcript) (filename stamp : str)
    (speaker dialogue : str) :
  In (speaker, dialogue) t -> clean_text html5 dialogue <> [] ->
  exists i,
    In (chronological_line i speaker (clean_text html5 dialogue))
       (format_chronological_lines html5 t filename stamp).
Proof.
  intros Hin Hne. destruct (enumerate1_In _ _ Hin) as [i Hi]. exists i.
  rewrite chronological_lines_flat_map. apply in_or_app. right.
  apply in_flat_map. exists (i, (speaker, dialogue)). split; [assumption|].
  simpl. apply truthy_true in Hne. rewrite Hne. now left.
Qed.

End SpeakerNames.

(** C10: the speaker of an utterance that is rendered stands in both
    renderings as the transcript has it, uncleaned: as the line [SPEAKER: ]
    and the speaker in the grouped one, and between the index and the
    cleaned text in a line of the chronological one.  The extractor for its
    part only strips the captured name. *)
Theorem speaker_names_are_rendered_uncleaned
    (html5 : Html.entities) (t : transcript) (filename stamp : str)
    (speaker dialogue : str) :
  In (speaker, dialogue) t ->
  clean_text html5 dialogue <> [] ->
  (In (speaker_line speaker)
      (format_output_lines html5 (organize_by_speaker html5 t) filename stamp)
   /\ occurs_in (speaker_line speaker)
        (format_output html5 (organize_by_speaker html5 t) filename stamp))
  /\ (exists i,
        In (chronological_line i speaker (clean_text html5 dialogue))
           (format_chronological_lines html5 t filename stamp)
        /\ occurs_in (chronological_line i speaker (clean_text html5 dialogue))
             (format_chronological_output html5 t filename stamp))
  /\ (forall paragraph name,
        Re.search speaker_pattern paragraph = Some name ->
        map fst (contribution paragraph) = [strip name]
        \/ contribution paragraph = []).
Proof.
  intros Hin Hne. split; [|split].
  - assert (H : In (speaker_line speaker)
                  (format_output_lines html5 (organize_by_speaker html5 t)
                     filename stamp)).
    { apply speaker_line_rendered. eapply kept_speaker_is_key; eassumption. }
    split; [assumption | now apply join_occurs].
  - destruct (chronological_line_rendered html5 t filename stamp _ _ Hin Hne)
      as [i Hi].
    exists i. split; [assumption | now apply join_occurs].
  - intros paragraph name Hs. unfold contribution, extract_paragraph.
    rewrite Hs. destruct (truthy _); [now left | now right].
Qed.

(** The name [Tom &amp;  Jerry] goes through both renderings with its
    character reference and its two spaces. *)
Lemma speaker_names_are_rendered_uncleaned_witness :
  (In (speaker_line (lit "Tom &amp;  Jerry"))
      (format_output_lines no_names (organize_by_speaker no_names tom_and_jerry)
         (lit "m.raw") (lit "now"))
   /\ occurs_in (speaker_line (lit "Tom &amp;  Jerry"))
        (format_output no_names (organize_by_speaker no_names tom_and_jerry)
           (lit "m.raw") (lit "now")))
  /\ (exists i,
        In (chronological_line i (lit "Tom &amp;  Jerry")
              (clean_text no_names (lit "hi")))
           (format_chronological_lines no_names tom_and_jerry
              (lit "m.raw") (lit "now"))
        /\ occurs_in (chronological_line i (lit "Tom &amp;  Jerry")
                        (clean_text no_names (lit "hi")))
             (format_chronological_output no_names tom_and_jerry
                (lit "m.raw") (lit "now")))
  /\ (forall paragraph name,
        Re.search speaker_pattern paragraph = Some name ->
        map fst (contribution paragraph) = [strip name]
        \/ contribution paragraph = []).
Proof.
  apply (@speaker_names_are_rendered_uncleaned no_names tom_and_jerry
           (lit "m.raw") (lit "now") (lit "Tom &amp;  Jerry") (lit "hi")).
  - left. reflexivity.
  - vm_compute. discriminate.
Defined.

(** ** The matcher *)

Section Matcher.

Import Re.

Lemma rep_inv {A} (greedy : bool) (p : char -> bool) (s : str) :
  forall (lo : nat) (hi : option nat) (k : str -> option A) (x : A),
    rep greedy p lo hi s k = Some x ->
    exists s1, k s1 = Some x /\ length s1 + lo <= length s.
Proof.
  induction s as [|c s IH]; intros lo hi k x H; simpl in H.
  - destruct lo; [|discriminate]. exists []. split; [assumption | simpl; lia].
  - assert (Hstop : match lo with 0 => k (c :: s) | S _ => None end = Some x ->
                    exists s1, k s1 = Some x /\ length s1 + lo <= length (c :: s)).
    { destruct lo; [|discriminate]. intros Hk. exists (c :: s). split; [assumption | lia]. }
    assert (Hmore : rep greedy p (pred lo) (option_map pred hi) s k = Some x ->
                    exists s1, k s1 = Some x /\ length s1 + lo <= length (c :: s)).
    { intros Hk. destruct (IH _ _ _ _ Hk) as [s1 [H1 H2]].
      exists s1. split; [assumption | simpl; lia]. }
    destruct (p c && may_take hi)%bool; [|auto].
    destruct greedy.
    + destruct (rep true p (pred lo) (option_map pred hi) s k) eqn:E; auto.
    + destruct (match lo with 0 => k (c :: s) | S _ => None end) eqn:E; auto.
Qed.

(** A match takes at least [min_len] characters, and a pattern without a
    group hands the group on as it got it. *)
Lemma run_inv {A} (r : re) :
  forall (s : str) (g : option str) (k : str -> option str -> option A) (x : A),
    run r s g k = Some x ->
    exists s1 g1,
      k s1 g1 = Some x
      /\ length s1 + min_len r <= length s
      /\ (has_group r = false -> g1 = g).
Proof.
  induction r as [|p|r1 IH1 r2 IH2|r1 IH1 r2 IH2|greedy p lo hi|r IH];
    intros s g k x H; simpl in H.
  - exists s, g. repeat split; [assumption | simpl; lia].
  - destruct s as [|c s]; [discriminate|]. destruct (p c); [|discriminate].
    exists s, g. repeat split; [assumption | simpl; lia].
  - destruct (IH1 _ _ _ _ H) as (s1 & g1 & H1 & L1 & G1).
    destruct (IH2 _ _ _ _ H1) as (s2 & g2 & H2 & L2 & G2).
    exists s2, g2. repeat split; [assumption | simpl; lia |].
    simpl. intros Hg. apply orb_false_iff in Hg. destruct Hg as [Ha Hb].
    rewrite (G2 Hb). now apply G1.
  - destruct (run r1 s g k) eqn:E.
    + inversion H; subst. 
      destruct (IH1 _ _ _ _ E) as (s1 & g1 & Hk & L & G).
      exists s1, g1. repeat split; [assumption | simpl; lia |].
      simpl. intros Hg. apply orb_false_iff in Hg. now apply G.
    + destruct (IH2 _ _ _ _ H) as (s1 & g1 & Hk & L & G).
      exists s1, g1. repeat split; [assumption | simpl; lia |].
      simpl. intros Hg. apply orb_false_iff in Hg. now apply G.
  - destruct (rep_inv _ _ _ _ _ _ H) as (s1 & Hk & L).
    exists s1, g. repeat split; assumption.
  - destruct (IH _ _ _ _ H) as (s1 & g1 & Hk & L & G).
    exists s1, (Some (firstn (length s - length s1) s)).
    repeat split; [assumption | assumption | discriminate].
Qed.

End Matcher.

Section Scanning.

Import Re.

Variable r : re.

Lemma match_at_bounds (s : str) (n : nat) (g : option str) :
  match_at r s = Some (n, g) -> min_len r <= n <= length s.
Proof.
  unfold match_at. intros H. apply run_inv in H.
  destruct H as (s1 & g1 & Hk & L & _). inversion Hk; subst. lia.
Qed.

Lemma scan_skip (s : str) :
  forall n, n <= length s -> scan r s n = scan r (skipn n s) 0.
Proof.
  induction s as [|c s IH]; intros n Hn.
  - simpl in Hn. now replace n with 0 by lia.
  - destruct n as [|n]; [reflexivity|]. simpl in Hn.
    change (scan r (c :: s) (S n)) with (scan r s n).
    rewrite IH by lia. reflexivity.
Qed.

(** One round of the scan: after a match of [S m] characters it goes on
    behind the match, otherwise it keeps the character it stands on. *)
Lemma scan_step (c : char) (s : str) :
  scan r (c :: s) 0 =
  match match_at r (c :: s) with
  | Some (S m, g) => Hit (firstn (S m) (c :: s)) g :: scan r (skipn m s) 0
  | Some (0, g) => Hit [] g :: Keep c :: scan r s 0
  | None => Keep c :: scan r s 0
  end.
Proof.
  change (scan r (c :: s) 0) with
    (match match_at r (c :: s) with
     | Some (n, g) =>
         Hit (firstn n (c :: s)) g ::
         match n with 0 => Keep c :: scan r s 0 | S m => scan r s m end
     | None => Keep c :: scan r s 0
     end).
  destruct (match_at r (c :: s)) as [[[|m] g]|] eqn:E; try reflexivity.
  apply match_at_bounds in E. simpl in E.
  rewrite scan_skip by lia. reflexivity.
Qed.

Lemma scan_nil : 0 < min_len r -> scan r [] 0 = [].
Proof.
  intros Hm. simpl. destruct (match_at r []) as [[n g]|] eqn:E; [|reflexivity].
  apply match_at_bounds in E. simpl in E. lia.
Qed.

(** Every match the scan reports is a match of the pattern at some place. *)
Lemma scan_hit (s : str) (w : str) (g : option str) :
  forall skip, In (Hit w g) (scan r s skip) ->
  exists s' n, match_at r s' = Some (n, g).
Proof.
  induction s as [|c s IH]; intros skip Hin.
  - destruct skip; simpl in Hin; [|contradiction].
    destruct (match_at r []) as [[n g']|] eqn:E; [|contradiction].
    destruct Hin as [Heq|[]]. inversion Heq; subst. now exists [], n.
  - destruct skip as [|skip]; [|exact (IH _ Hin)].
    simpl in Hin. destruct (match_at r (c :: s)) as [[n g']|] eqn:E.
    + destruct Hin as [Heq|Hin].
      * inversion Heq; subst. now exists (c :: s), n.
      * destruct n; [destruct Hin as [Heq|Hin]; [discriminate|]|]; exact (IH _ Hin).
    + destruct Hin as [Heq|Hin]; [discriminate | exact (IH _ Hin)].
Qed.

Lemma findall_hit (s x : str) :
  In x (findall r s) -> exists s' n g, match_at r s' = Some (n, g) /\ x = group1 g.
Proof.
  unfold findall. rewrite in_flat_map. intros [[c|w g] [Hin Hx]]; [contradiction|].
  destruct Hx as [<-|[]]. destruct (scan_hit _ _ _ _ Hin) as (s' & n & E).
  now exists s', n, g.
Qed.

Lemma search_hit (s x : str) :
  search r s = Some x -> exists s' n g, match_at r s' = Some (n, g) /\ x = group1 g.
Proof.
  unfold search. destruct (findall r s) as [|y l] eqn:E; [discriminate|].
  intros H. inversion H; subst. apply (findall_hit s). rewrite E. now left.
Qed.

End Scanning.

(** The speaker pattern captures at least one character. *)
Lemma speaker_group_nonempty (paragraph name : str) :
  Re.search speaker_pattern paragraph = Some name -> name <> [].
Proof.
  intros H. apply search_hit in H. destruct H as (s & n & g & H & ->).
  unfold Re.match_at, speaker_pattern in H. cbn [Re.seqs] in H.
  repeat (change (Re.run (Re.Seq ?a ?b) ?s ?g ?k)
            with (Re.run a s g (fun s1 g1 => Re.run b s1 g1 k)) in H;
          match type of H with
          | Re.run (Re.Grp _) _ _ _ = _ => fail 1
          | _ => apply run_inv in H; destruct H as (? & ? & H & _ & _)
          end).
  change (Re.run (Re.Seq ?a ?b) ?s ?g ?k)
    with (Re.run a s g (fun s1 g1 => Re.run b s1 g1 k)) in H.
  cbn [Re.run] in H. unfold Re.plus in H.
  apply rep_inv in H. destruct H as (s1 & H & L).
  apply run_inv in H. destruct H as (s2 & g2 & H & _ & G).
  inversion H; subst. rewrite G by reflexivity. simpl.
  intros Hnil. apply (f_equal (@length _)) in Hnil.
  rewrite length_firstn in Hnil. simpl in Hnil. lia.
Qed.

(** ** Blank speaker names *)

Lemma lstrip_spaces (s : str) : forallb is_space s = true -> lstrip s = [].
Proof.
  induction s as [|c s IH]; simpl; [reflexivity|].
  intros H. apply andb_true_iff in H. destruct H as [Hc Hs]. now rewrite Hc, IH.
Qed.

Lemma strip_spaces (s : str) : forallb is_space s = true -> strip s = [].
Proof. intros H. unfold strip. now rewrite (lstrip_spaces _ H). Qed.

(** C9: a segment whose captured speaker text is nothing but whitespace
    contributes an utterance under the empty name, and when its text is not
    empty after cleaning the grouped rendering has a group headed by the
    empty name. *)
Theorem blank_speaker_gives_empty_name
    (html5 : Html.entities) (html_content paragraph name filename stamp : str) :
  In paragraph (Re.findall paragraph_pattern html_content) ->
  Re.search speaker_pattern paragraph = Some name ->
  forallb is_space name = true ->
  Re.findall dialogue_pattern paragraph <> [] ->
  name <> []
  /\ In ([], join [space] (Re.findall dialogue_pattern paragraph))
        (extract_speaker_and_text html_content)
  /\ (clean_text html5 (join [space] (Re.findall dialogue_pattern paragraph)) <> [] ->
      In (speaker_line [])
         (format_output_lines html5
            (organize_by_speaker html5 (extract_speaker_and_text html_content))
            filename stamp)).
Proof.
  intros Hp Hs Hblank Hf.
  assert (Hin : In ([], join [space] (Re.findall dialogue_pattern paragraph))
                   (extract_speaker_and_text html_content)).
  { rewrite extract_flat_map. apply in_flat_map. exists paragraph.
    split; [assumption|]. unfold contribution, extract_paragraph.
    rewrite Hs, (strip_spaces _ Hblank).
    apply truthy_true in Hf. rewrite Hf. now left. }
  split; [|split].
  - eapply speaker_group_nonempty; eassumption.
  - exact Hin.
  - intros Hne. apply speaker_line_rendered.
    eapply kept_speaker_is_key; eassumption.
Qed.

(** A segment whose speaker span holds one space: the utterance has the
    empty name, and the grouped rendering a group under it. *)
Lemma blank_speaker_gives_empty_name_witness :
  [space] <> []
  /\ In ([], join [space] (Re.findall dialogue_pattern blank_speaker_paragraph))
        (extract_speaker_and_text blank_speaker_document)
  /\ (clean_text no_names
        (join [space] (Re.findall dialogue_pattern blank_speaker_paragraph)) <> [] ->
      In (speaker_line [])
         (format_output_lines no_names
            (organize_by_speaker no_names
               (extract_speaker_and_text blank_speaker_document))
            (lit "m.raw") (lit "now"))).
Proof.
  apply (@blank_speaker_gives_empty_name no_names blank_speaker_document
           blank_speaker_paragraph [space] (lit "m.raw") (lit "now")).
  - vm_compute. left. reflexivity.
  - vm_compute. reflexivity.
  - reflexivity.
  - vm_compute. discriminate.
Defined.

Example blank_speaker_rendered :
  extract_speaker_and_text blank_speaker_document = [([], lit "hi")]
  /\ format_output_lines no_names
       (organize_by_speaker no_names (extract_speaker_and_text blank_speaker_document))
       (lit "m.raw") (lit "now")
     = header (lit "TRANSCRIPT: ") (lit "m.raw") (lit "now")
         ++ [lit "SPEAKER: "; repeat 45%N 40; lit "1. hi"; []].
Proof. split; vm_compute; reflexivity. Qed.

(** ** One file, and the batch *)

Section Batch.

Variable html5 : Html.entities.
Variable strftime_now : nat -> str.

Lemma process_file_no_utterances (file_name content : str) (w : world) :
  find_file file_name (input_files w) = Some (Ok content) ->
  extract_speaker_and_text content = [] ->
  process_file html5 strftime_now file_name w =
  (Ok false,
   logged w [lit "Processing: " ++ file_name;
             lit "  Warning: No transcript data found in " ++ file_name]).
Proof.
  intros Hread Hnone. unfold process_file, try_except, bind, print, read_file.
  simpl. rewrite Hread, Hnone. simpl. unfold logged.
  now rewrite <- app_assoc.
Qed.

Lemma process_file_no_speakers (file_name content : str) (w : world) :
  find_file file_name (input_files w) = Some (Ok content) ->
  extract_speaker_and_text content <> [] ->
  organize_by_speaker html5 (extract_speaker_and_text content) = [] ->
  process_file html5 strftime_now file_name w =
  (Ok false,
   logged w [lit "Processing: " ++ file_name;
             lit "  Warning: No valid speakers found in " ++ file_name]).
Proof.
  intros Hread Hsome Hnone. unfold process_file, try_except, bind, print, read_file.
  simpl. rewrite Hread. apply truthy_true in Hsome. rewrite Hsome, Hnone. simpl.
  unfold logged. now rewrite <- app_assoc.
Qed.

Lemma process_loop_after_failure (file_name : str) (rest : list str)
    (successful failed : nat) (w w' : world) :
  process_file html5 strftime_now file_name w = (Ok false, w') ->
  process_loop html5 strftime_now (file_name :: rest) successful failed w =
  process_loop html5 strftime_now rest successful (failed + 1) (logged w' [[]]).
Proof.
  intros H. simpl. unfold bind at 1. rewrite H. reflexivity.
Qed.

End Batch.

(** C8: a file that is read and yields no utterance, or no group, makes
    [process_file] return [False] without raising, having printed a warning
    and written nothing; the loop over the files counts it as failed and goes
    on with the next file. *)
Theorem soft_failure_is_reported_and_batch_continues
    (html5 : Html.entities) (strftime_now : nat -> str)
    (file_name content : str) (w : world) :
  find_file file_name (input_files w) = Some (Ok content) ->
  extract_speaker_and_text content = []
  \/ organize_by_speaker html5 (extract_speaker_and_text content) = [] ->
  exists warning : str,
    (warning = lit "  Warning: No transcript data found in "
     \/ warning = lit "  Warning: No valid speakers found in ")
    /\ process_file html5 strftime_now file_name w
       = (Ok false, logged w [lit "Processing: " ++ file_name; warning ++ file_name])
    /\ output_files (snd (process_file html5 strftime_now file_name w))
       = output_files w
    /\ forall rest successful failed,
         process_loop html5 strftime_now (file_name :: rest) successful failed w
         = process_loop html5 strftime_now rest successful (failed + 1)
             (logged w [lit "Processing: " ++ file_name; warning ++ file_name; []]).
Proof.
  intros Hread Hempty.
  assert (H : exists warning : str,
             (warning = lit "  Warning: No transcript data found in "
              \/ warning = lit "  Warning: No valid speakers found in ")
             /\ process_file html5 strftime_now file_name w
                = (Ok false,
                   logged w [lit "Processing: " ++ file_name; warning ++ file_name])).
  { destruct (extract_speaker_and_text content) as [|u t] eqn:E.
    - eexists. split; [now left|].
      now apply process_file_no_utterances with (content := content).
    - destruct Hempty as [Hempty|Hempty]; [discriminate|].
      eexists. split; [now right|].
      apply process_file_no_speakers with (content := content);
        [assumption | rewrite E; discriminate | now rewrite E]. }
  destruct H as [warning [Hw Hp]]. exists warning.
  split; [assumption|]. split; [assumption|]. split.
  - now rewrite Hp.
  - intros rest successful failed.
    rewrite (process_loop_after_failure _ _ _ _ _ _ _ Hp).
    f_equal. unfold logged. simpl. now rewrite <- app_assoc.
Qed.

(** A file whose only fragment is a space: one utterance, no group, a
    warning, nothing written, and the loop goes on. *)
Lemma soft_failure_is_reported_and_batch_continues_witness :
  exists warning : str,
    (warning = lit "  Warning: No transcript data found in "
     \/ warning = lit "  Warning: No valid speakers found in ")
    /\ process_file no_names (fun _ => lit "now") (lit "a.raw")
         (one_file "a.raw" blank_text_document)
       = (Ok false,
          logged (one_file "a.raw" blank_text_document)
            [lit "Processing: " ++ lit "a.raw"; warning ++ lit "a.raw"])
    /\ output_files (snd (process_file no_names (fun _ => lit "now") (lit "a.raw")
                            (one_file "a.raw" blank_text_document)))
       = output_files (one_file "a.raw" blank_text_document)
    /\ forall rest successful failed,
         process_loop no_names (fun _ => lit "now") (lit "a.raw" :: rest)
           successful failed (one_file "a.raw" blank_text_document)
         = process_loop no_names (fun _ => lit "now") rest successful (failed + 1)
             (logged (one_file "a.raw" blank_text_document)
                [lit "Processing: " ++ lit "a.raw"; warning ++ lit "a.raw"; []]).
Proof.
  apply (@soft_failure_is_reported_and_batch_continues no_names
           (fun _ => lit "now") (lit "a.raw") blank_text_document
           (one_file "a.raw" blank_text_document)).
  - vm_compute. reflexivity.
  - right. vm_compute. reflexivity.
Defined.

Example blank_text_has_an_utterance :
  extract_speaker_and_text blank_text_document = [(lit "Ann", lit " ")].
Proof. vm_compute. reflexivity. Qed.

(** A file with something to say is written out twice. *)
Example process_file_alice :
  let '(result, w) :=
    process_file no_names (fun _ => lit "now") (lit "talk.raw")
      (one_file "talk.raw" alice_document) in
  result = Ok true
  /\ map fst (output_files w)
     = [lit "talk_by_speaker.txt"; lit "talk_chronological.txt"]
  /\ find_file (lit "talk_by_speaker.txt") (output_files w)
     = Some (join [newline]
               (header (lit "TRANSCRIPT: ") (lit "talk.raw") (lit "now")
                  ++ [lit "SPEAKER: Alice"; repeat 45%N 40;
                      lit "1. Hel lo world"; []]))
  /\ find_file (lit "talk_chronological.txt") (output_files w)
     = Some (join [newline]
               (header (lit "TRANSCRIPT (CHRONOLOGICAL): ") (lit "talk.raw")
                  (lit "now")
                  ++ [lit "1. Alice: Hel lo world"; []])).
Proof. vm_compute. repeat split. Qed.

(** ** Tags *)

Lemma first_occurrence (x : char) (s : str) :
  In x s -> exists body rest, s = body ++ x :: rest /\ ~ In x body.
Proof.
  induction s as [|c s IH]; [contradiction|]. intros Hin.
  destruct (N.eq_dec c x) as [->|Hne].
  - exists [], s. split; [reflexivity | intros []].
  - destruct Hin as [Heq|Hin]; [contradiction|].
    destruct (IH Hin) as (body & rest & -> & Hb).
    exists (c :: body), rest. split; [reflexivity|].
    intros [Heq|Hb']; [contradiction | now apply Hb].
Qed.

Lemma rep_greedy_stop {A} (p : char -> bool) (s : str) (k : str -> option A) :
  k s <> None -> Re.rep true p 0 None s k <> None.
Proof.
  intros Hk. destruct s as [|c s]; simpl; [assumption|].
  destruct (p c); simpl; [|assumption].
  now destruct (Re.rep true p 0 None s k).
Qed.

(** A greedy unbounded repetition finds a way through whenever some run of
    the class, long enough, is followed by a text the rest accepts. *)
Lemma rep_greedy_complete {A} (p : char -> bool) (body : str) :
  forall (lo : nat) (rest : str) (k : str -> option A),
    forallb p body = true -> lo <= length body -> k rest <> None ->
    Re.rep true p lo None (body ++ rest) k <> None.
Proof.
  induction body as [|c body IH]; intros lo rest k Hp Hlo Hk.
  - simpl in Hlo. replace lo with 0 by lia. now apply rep_greedy_stop.
  - simpl in Hp. apply andb_true_iff in Hp. destruct Hp as [Hc Hp].
    simpl. rewrite Hc. simpl.
    assert (H : Re.rep true p (pred lo) None (body ++ rest) k <> None).
    { apply IH; [assumption | simpl in Hlo; lia | assumption]. }
    now destruct (Re.rep true p (pred lo) None (body ++ rest) k).
Qed.

Lemma except_forallb (x : char) (s : str) :
  ~ In x s -> forallb (except x) s = true.
Proof.
  induction s as [|c s IH]; [reflexivity|]. intros Hnin. simpl.
  rewrite IH by (intros H; apply Hnin; now right).
  unfold except. destruct (N.eqb_spec x c) as [->|]; [|reflexivity].
  exfalso. apply Hnin. now left.
Qed.

(** Where the tag pattern fails on an opening bracket, the bracket is the
    last character, or a closing bracket follows at once, or none follows at
    all. *)
Lemma tag_match_fails (s : str) :
  Re.match_at tag_pattern (lt_sign :: s) = None ->
  s = [] \/ (exists s', s = gt_sign :: s') \/ ~ In gt_sign s.
Proof.
  intros Hnone. destruct s as [|c s]; [now left|]. right.
  destruct (N.eq_dec c gt_sign) as [->|Hc]; [left; now exists s|]. right.
  intros Hin. destruct (first_occurrence _ _ Hin) as (body & rest & Heq & Hb).
  revert Hnone. rewrite Heq. unfold Re.match_at, tag_pattern. cbn [Re.seqs Re.run].
  change (just lt_sign lt_sign) with true. cbv iota. unfold Re.plus.
  apply rep_greedy_complete.
  - now apply except_forallb.
  - destruct body as [|b body]; [|simpl; lia].
    simpl in Heq. inversion Heq. contradiction.
  - change (just gt_sign gt_sign) with true. discriminate.
Qed.

Lemma tag_match_head (c : char) (s : str) :
  c <> lt_sign -> Re.match_at tag_pattern (c :: s) = None.
Proof.
  intros Hc. unfold Re.match_at, tag_pattern. cbn [Re.seqs Re.run].
  unfold just. destruct (N.eqb_spec lt_sign c); [congruence | reflexivity].
Qed.

Lemma scan_keeps (r : Re.re) (c : char) (s : str) :
  forall skip, In (Re.Keep c) (Re.scan r s skip) -> In c s.
Proof.
  induction s as [|d s IH]; intros skip Hin.
  - destruct skip; simpl in Hin; [|contradiction].
    destruct (Re.match_at r []) as [[n g]|]; [|contradiction].
    destruct Hin as [Heq|[]]. discriminate.
  - destruct skip as [|skip]; [|right; exact (IH _ Hin)].
    simpl in Hin. destruct (Re.match_at r (d :: s)) as [[n g]|].
    + destruct Hin as [Heq|Hin]; [discriminate|].
      destruct n; [destruct Hin as [Heq|Hin]; [inversion Heq; now left|]|];
        right; exact (IH _ Hin).
    + destruct Hin as [Heq|Hin]; [inversion Heq; now left | right; exact (IH _ Hin)].
Qed.

Lemma strip_tags_chars (x : char) (s : str) : In x (strip_tags s) -> In x s.
Proof.
  unfold strip_tags, Re.sub. rewrite in_flat_map. intros [[c|w g] [Hin Hx]].
  - destruct Hx as [<-|[]]. exact (scan_keeps _ _ _ _ Hin).
  - contradiction.
Qed.

Lemma strip_tags_nil : strip_tags [] = [].
Proof. reflexivity. Qed.

Lemma strip_tags_cons (c : char) (s : str) :
  strip_tags (c :: s) =
  match Re.match_at tag_pattern (c :: s) with
  | Some (S m, _) => strip_tags (skipn m s)
  | _ => c :: strip_tags s
  end.
Proof.
  unfold strip_tags, Re.sub. rewrite scan_step.
  now destruct (Re.match_at tag_pattern (c :: s)) as [[[|m] g]|].
Qed.

Lemma has_tag_cons (c : char) (o : str) :
  has_tag (c :: o) ->
  has_tag o
  \/ (c = lt_sign /\ exists body after,
        o = body ++ gt_sign :: after /\ body <> [] /\ ~ In gt_sign body).
Proof.
  intros (before & m & after & Heq & body & -> & Hne & Hnin).
  destruct before as [|b before].
  - right. simpl in Heq. inversion Heq; subst. split; [reflexivity|].
    exists body, after. split; [now rewrite <- app_assoc | now split].
  - left. simpl in Heq. inversion Heq; subst.
    exists before, (lt_sign :: body ++ [gt_sign]), after.
    split; [reflexivity|]. now exists body.
Qed.

(** Removing the tags leaves no tag. *)
Lemma strip_tags_no_tag (n : nat) :
  forall s, length s <= n -> ~ has_tag (strip_tags s).
Proof.
  induction n as [|n IH]; intros s Hlen Htag.
  - destruct s; [|simpl in Hlen; lia].
    destruct Htag as (before & m & after & Heq & body & -> & _).
    rewrite strip_tags_nil in Heq. destruct before; discriminate.
  - destruct s as [|c s].
    { destruct Htag as (before & m & after & Heq & body & -> & _).
      rewrite strip_tags_nil in Heq. destruct before; discriminate. }
    simpl in Hlen. rewrite strip_tags_cons in Htag.
    assert (Hkeep : Re.match_at tag_pattern (c :: s) = None ->
                    has_tag (c :: strip_tags s) -> False).
    { intros Hnone Hc. apply has_tag_cons in Hc.
      destruct Hc as [Hc | [-> (body & after & Heq & Hne & Hnin)]].
      - apply (IH s); [lia | assumption].
      - destruct (tag_match_fails _ Hnone) as [-> | [[s' ->] | Hno]].
        + rewrite strip_tags_nil in Heq. destruct body; discriminate.
        + rewrite strip_tags_cons, tag_match_head in Heq by discriminate.
          destruct body as [|b body]; [contradiction|].
          simpl in Heq. inversion Heq; subst. apply Hnin. now left.
        + apply Hno. apply strip_tags_chars. rewrite Heq.
          apply in_or_app. right. now left. }
    destruct (Re.match_at tag_pattern (c :: s)) as [[[|m] g]|] eqn:E.
    + apply match_at_bounds in E. simpl in E. lia.
    + apply (IH (skipn m s)); [|assumption].
      rewrite length_skipn. lia.
    + now apply Hkeep.
Qed.

Lemma lstrip_suffix (s : str) : exists a, s = a ++ lstrip s.
Proof.
  induction s as [|c s [a IH]]; [now exists []|]. simpl.
  destruct (is_space c); [|now exists []].
  exists (c :: a). simpl. now rewrite <- IH.
Qed.

Lemma strip_part (s : str) : exists a b, s = a ++ strip s ++ b.
Proof.
  unfold strip, rstrip. destruct (lstrip_suffix s) as [a Ha].
  destruct (lstrip_suffix (rev (lstrip s))) as [b Hb].
  exists a, (rev b). rewrite <- rev_app_distr, <- Hb, rev_involutive. exact Ha.
Qed.

(** C6: no tag stands in a cleaned text: nowhere in it an opening angle
    bracket is followed by one or more characters other than a closing one
    and then a closing one. *)
Theorem clean_text_has_no_tag (html5 : Html.entities) (s : str) :
  ~ has_tag (clean_text html5 s).
Proof.
  unfold clean_text.
  set (t := Re.sub punctuation_pattern _ _).
  change (Re.sub tag_pattern (fun _ _ => []) t) with (strip_tags t).
  intros (before & m & after & Heq & Hm).
  destruct (strip_part (strip_tags t)) as (a & b & Hab).
  apply (@strip_tags_no_tag (length t) t (le_n _)).
  exists (a ++ before), m, (after ++ b). split; [|assumption].
  rewrite Hab, Heq. now rewrite <- !app_assoc.
Qed.

(** ** Runs of whitespace *)

Lemma lstrip_length (s : str) : length (lstrip s) <= length s.
Proof.
  induction s as [|c s IH]; simpl; [lia|]. destruct (is_space c); simpl; lia.
Qed.

Lemma lstrip_head (s : str) (d : char) (s2 : str) :
  lstrip s = d :: s2 -> is_space d = false.
Proof.
  induction s as [|c s IH]; simpl; [discriminate|].
  destruct (is_space c) eqn:E; [assumption|]. intros H. inversion H; subst. exact E.
Qed.

Lemma skipn_suffix {A} (a b : list A) :
  skipn (length (a ++ b) - length b) (a ++ b) = b.
Proof.
  rewrite length_app. replace (length a + length b - length b) with (length a) by lia.
  rewrite skipn_app, skipn_all, Nat.sub_diag. reflexivity.
Qed.

Lemma lstrip_skipn (s : str) : skipn (length s - length (lstrip s)) s = lstrip s.
Proof.
  destruct (lstrip_suffix s) as [a Ha]. set (b := lstrip s) in *. clearbody b.
  subst s. apply skipn_suffix.
Qed.

(** A greedy run of whitespace before a rest [k] that, where it rejects
    what follows the whole run, rejects every text that starts with
    whitespace: the run takes all the whitespace there is. *)
Lemma rep_spaces {A} (k : str -> option A) (s : str) :
  forall lo,
    (k (lstrip s) = None -> forall c t, is_space c = true -> k (c :: t) = None) ->
    Re.rep true is_space lo None s k =
    if lo <=? length s - length (lstrip s) then k (lstrip s) else None.
Proof.
  induction s as [|c s IH]; intros lo Hk.
  - simpl. now destruct lo.
  - revert Hk. cbn [lstrip Re.rep]. change (length (c :: s)) with (S (length s)).
    destruct (is_space c) eqn:Ec; cbn [andb Re.may_take option_map]; intros Hk.
    + rewrite (IH (pred lo) Hk).
      assert (Hl := lstrip_length s).
      replace (S (length s) - length (lstrip s))
        with (S (length s - length (lstrip s))) by lia.
      destruct (Nat.leb_spec (pred lo) (length s - length (lstrip s))) as [Hle|Hgt].
      * destruct (Nat.leb_spec lo (S (length s - length (lstrip s)))); [|lia].
        destruct (k (lstrip s)) eqn:Ek; [reflexivity|].
        destruct lo; [|reflexivity]. now apply Hk.
      * destruct (Nat.leb_spec lo (S (length s - length (lstrip s)))); [lia|].
        destruct lo; [lia | reflexivity].
    + change (length (c :: s)) with (S (length s)).
      rewrite Nat.sub_diag. now destruct lo.
Qed.

Lemma punctuation_not_space (c : char) : punctuation c = true -> is_space c = false.
Proof.
  unfold punctuation, one_of. simpl. rewrite !orb_true_iff.
  intros H. repeat (destruct H as [H|H]; [apply N.eqb_eq in H; subst; reflexivity|]).
  discriminate.
Qed.

(** Where [\s+] matches, and how much. *)
Lemma spaces_match (s : str) :
  Re.match_at spaces_pattern s =
  if 1 <=? length s - length (lstrip s)
  then Some (length s - length (lstrip s), None) else None.
Proof.
  unfold Re.match_at, spaces_pattern, Re.plus. cbn [Re.run].
  rewrite rep_spaces; [reflexivity | discriminate].
Qed.

(** Where [\s+([.,!?;:])] matches, how much, and what the group holds. *)
Lemma punctuation_match (s : str) :
  Re.match_at punctuation_pattern s =
  if 1 <=? length s - length (lstrip s) then
    match lstrip s with
    | d :: s2 => if punctuation d then Some (length s - length s2, Some [d]) else None
    | [] => None
    end
  else None.
Proof.
  unfold Re.match_at, punctuation_pattern, Re.plus. cbn [Re.run].
  rewrite rep_spaces.
  - destruct (1 <=? _); [|reflexivity].
    destruct (lstrip s) as [|d s2]; [reflexivity|].
    fold punctuation. destruct (punctuation d); [|reflexivity].
    do 3 f_equal. change (length (d :: s2)) with (S (length s2)).
    replace (S (length s2) - length s2) with 1 by lia. reflexivity.
  - intros _ c t Hc. fold punctuation.
    destruct (punctuation c) eqn:Ep; [|reflexivity].
    apply punctuation_not_space in Ep. congruence.
Qed.

Lemma spaces_match_cons (c : char) (s : str) :
  Re.match_at spaces_pattern (c :: s) =
  if is_space c then Some (S (length s - length (lstrip s)), None) else None.
Proof.
  rewrite spaces_match. cbn [lstrip]. assert (Hl := lstrip_length s).
  change (length (c :: s)) with (S (length s)).
  destruct (is_space c).
  - replace (S (length s) - length (lstrip s))
      with (S (length s - length (lstrip s))) by lia.
    reflexivity.
  - change (length (c :: s)) with (S (length s)). now rewrite Nat.sub_diag.
Qed.

Lemma lstrip_tail_length (s : str) (d : char) (s2 : str) :
  lstrip s = d :: s2 -> S (length s2) <= length s.
Proof.
  intros H. assert (Hl := lstrip_length s). rewrite H in Hl. exact Hl.
Qed.

Lemma punctuation_match_cons (c : char) (s : str) :
  Re.match_at punctuation_pattern (c :: s) =
  if is_space c then
    match lstrip s with
    | d :: s2 =>
        if punctuation d then Some (S (length s - length s2), Some [d]) else None
    | [] => None
    end
  else None.
Proof.
  rewrite punctuation_match. cbn [lstrip]. assert (Hl := lstrip_length s).
  change (length (c :: s)) with (S (length s)).
  destruct (is_space c).
  - replace (S (length s) - length (lstrip s))
      with (S (length s - length (lstrip s))) by lia.
    cbn [Nat.leb]. destruct (lstrip s) as [|d s2] eqn:E; [reflexivity|].
    apply lstrip_tail_length in E.
    replace (S (length s) - length s2) with (S (length s - length s2)) by lia.
    reflexivity.
  - change (length (c :: s)) with (S (length s)). now rewrite Nat.sub_diag.
Qed.

Lemma collapse_spaces_nil : collapse_spaces [] = [].
Proof. reflexivity. Qed.

(** A run of whitespace becomes one space; any other character stays. *)
Lemma collapse_spaces_cons (c : char) (s : str) :
  collapse_spaces (c :: s) =
  if is_space c then space :: collapse_spaces (lstrip s)
  else c :: collapse_spaces s.
Proof.
  unfold collapse_spaces, Re.sub. rewrite scan_step, spaces_match_cons.
  destruct (is_space c); [|reflexivity].
  now rewrite lstrip_skipn.
Qed.

Lemma tidy_punctuation_nil : tidy_punctuation [] = [].
Proof. reflexivity. Qed.

(** A run of whitespace before a punctuation mark goes; everything else
    stays. *)
Lemma tidy_punctuation_cons (c : char) (s : str) :
  tidy_punctuation (c :: s) =
  if is_space c then
    match lstrip s with
    | d :: s2 =>
        if punctuation d then d :: tidy_punctuation s2
        else c :: tidy_punctuation s
    | [] => c :: tidy_punctuation s
    end
  else c :: tidy_punctuation s.
Proof.
  unfold tidy_punctuation, Re.sub. rewrite scan_step, punctuation_match_cons.
  destruct (is_space c); [|reflexivity].
  destruct (lstrip s) as [|d s2] eqn:E; [reflexivity|].
  destruct (punctuation d); [|reflexivity].
  destruct (lstrip_suffix s) as [a Ha]. rewrite E in Ha.
  assert (Hs : s = (a ++ [d]) ++ s2) by now rewrite <- app_assoc.
  assert (Hk : skipn (length s - length s2) s = s2).
  { rewrite Hs. apply skipn_suffix. }
  cbn [flat_map Re.group1 app]. now rewrite Hk.
Qed.

(** ** Cleaning twice *)

Lemma chain_app_r (R : char -> char -> Prop) (a b : str) :
  chain R (a ++ b) -> chain R b.
Proof.
  induction a as [|c a IH]; [now simpl|]. simpl. intros [_ H]. now apply IH.
Qed.

Lemma chain_app_l (R : char -> char -> Prop) (a b : str) :
  chain R (a ++ b) -> chain R a.
Proof.
  induction a as [|c a IH]; [now simpl|]. simpl. intros [H1 H2].
  split; [|now apply IH]. destruct a; [trivial | exact H1].
Qed.

Lemma single_spaces_part (a m b : str) :
  single_spaces (a ++ m ++ b) -> single_spaces m.
Proof.
  intros [HF HC]. split.
  - apply Forall_app in HF. destruct HF as [_ HF].
    apply Forall_app in HF. now destruct HF.
  - apply chain_app_r in HC. now apply chain_app_l in HC.
Qed.

Lemma single_spaces_tail (c : char) (s : str) :
  single_spaces (c :: s) -> single_spaces s.
Proof. intros H. apply (single_spaces_part [c] s []). now rewrite app_nil_r. Qed.

Lemma lstrip_id (s : str) : starts_clean s -> lstrip s = s.
Proof. destruct s as [|d s]; [reflexivity|]. simpl. now intros ->. Qed.

Lemma lstrip_starts_clean (s : str) : starts_clean (lstrip s).
Proof.
  destruct (lstrip s) as [|d s2] eqn:E; [exact I|]. exact (lstrip_head _ E).
Qed.

Lemma single_spaces_next (c : char) (s : str) :
  single_spaces (c :: s) -> is_space c = true -> c = space /\ starts_clean s.
Proof.
  intros [HF HC] Hc. inversion HF as [|? ? Hhead _]; subst.
  split; [now apply Hhead|]. destruct s as [|d s]; [exact I|].
  simpl in HC. now apply HC.
Qed.

Lemma single_spaces_cons (c : char) (s : str) :
  (is_space c = true -> c = space /\ starts_clean s) ->
  single_spaces s -> single_spaces (c :: s).
Proof.
  intros Hc [HF HC]. split.
  - constructor; [|assumption]. intros H. now apply Hc.
  - simpl. split; [|assumption]. destruct s as [|d s]; [exact I|].
    intros H. now apply Hc.
Qed.

(** Collapsing leaves single spaces only. *)
Lemma collapse_spaces_single (n : nat) :
  forall s, length s <= n -> single_spaces (collapse_spaces s).
Proof.
  induction n as [|n IH]; intros s Hlen.
  - destruct s; [|simpl in Hlen; lia]. split; [constructor | exact I].
  - destruct s as [|c s]; [split; [constructor | exact I]|].
    simpl in Hlen. rewrite collapse_spaces_cons.
    destruct (is_space c) eqn:Ec.
    + assert (Hl := lstrip_length s).
      apply single_spaces_cons; [|apply IH; lia].
      intros _. split; [reflexivity|].
      destruct (lstrip s) as [|d s2] eqn:E; [exact I|].
      rewrite collapse_spaces_cons, (lstrip_head _ E). exact (lstrip_head _ E).
    + apply single_spaces_cons; [congruence | apply IH; lia].
Qed.

(** Single spaces are left as they are. *)
Lemma collapse_spaces_fixed (s : str) :
  single_spaces s -> collapse_spaces s = s.
Proof.
  induction s as [|c s IH]; intros Hs; [reflexivity|].
  rewrite collapse_spaces_cons, (IH (single_spaces_tail Hs)).
  destruct (is_space c) eqn:Ec; [|reflexivity].
  destruct (single_spaces_next Hs Ec) as [-> Hclean].
  rewrite (lstrip_id _ Hclean). now rewrite (IH (single_spaces_tail Hs)).
Qed.

Unset Implicit Arguments.

Lemma tidy_punctuation_clean_head (d : char) (s : str) :
  is_space d = false -> tidy_punctuation (d :: s) = d :: tidy_punctuation s.
Proof. intros Hd. now rewrite tidy_punctuation_cons, Hd. Qed.

(** On single spaces, tidying keeps the spaces single and leaves none before
    a punctuation mark. *)
Lemma tidy_punctuation_normal (n : nat) :
  forall s, length s <= n -> single_spaces s ->
  single_spaces (tidy_punctuation s)
  /\ no_space_before_punctuation (tidy_punctuation s).
Proof.
  induction n as [|n IH]; intros s Hlen Hs.
  - destruct s; [|simpl in Hlen; lia]. repeat split; constructor.
  - destruct s as [|c s]; [repeat split; constructor|].
    simpl in Hlen. assert (Hs' := single_spaces_tail Hs).
    rewrite tidy_punctuation_cons. destruct (is_space c) eqn:Ec.
    + destruct (single_spaces_next Hs Ec) as [-> Hclean].
      rewrite (lstrip_id _ Hclean).
      destruct s as [|d s2].
      * rewrite tidy_punctuation_nil. split; [exact Hs | split; exact I].
      * simpl in Hclean, Hlen.
        destruct (IH (d :: s2)) as [H1 H2]; [simpl; lia | assumption |].
        rewrite (tidy_punctuation_clean_head _ _ Hclean) in H1, H2.
        destruct (punctuation d) eqn:Ep.
        -- destruct (IH s2) as [H3 H4];
             [lia | exact (single_spaces_tail Hs') |].
           split.
           ++ apply single_spaces_cons; [congruence | assumption].
           ++ unfold no_space_before_punctuation in *. simpl. split; [|assumption].
              destruct (tidy_punctuation s2); [exact I | congruence].
        -- rewrite (tidy_punctuation_clean_head _ _ Hclean). split.
           ++ apply single_spaces_cons; [|assumption].
              intros _. split; [reflexivity | exact Hclean].
           ++ unfold no_space_before_punctuation in *. simpl.
              split; [intros _; exact Ep | exact H2].
    + destruct (IH s) as [H1 H2]; [lia | assumption |]. split.
      * apply single_spaces_cons; [congruence | assumption].
      * unfold no_space_before_punctuation in *. simpl. split; [|assumption].
        destruct (tidy_punctuation s); [exact I | congruence].
Qed.

(** Single spaces, none of them before a punctuation mark, are left as they
    are. *)
Lemma tidy_punctuation_fixed (s : str) :
  single_spaces s -> no_space_before_punctuation s -> tidy_punctuation s = s.
Proof.
  induction s as [|c s IH]; intros Hs Hq; [reflexivity|].
  assert (IH' : tidy_punctuation s = s).
  { apply IH; [exact (single_spaces_tail Hs)|].
    unfold no_space_before_punctuation in *. simpl in Hq. now destruct Hq. }
  rewrite tidy_punctuation_cons, IH'.
  destruct (is_space c) eqn:Ec; [|reflexivity].
  destruct (single_spaces_next Hs Ec) as [_ Hclean].
  rewrite (lstrip_id _ Hclean). destruct s as [|d s2]; [reflexivity|].
  unfold no_space_before_punctuation in Hq. simpl in Hq. destruct Hq as [Hq _].
  now rewrite (Hq Ec).
Qed.

Lemma lstrip_lstrip (s : str) : lstrip (lstrip s) = lstrip s.
Proof. apply (@lstrip_id (lstrip s)), lstrip_starts_clean. Qed.

Lemma rstrip_prefix (s : str) : exists b, s = rstrip s ++ b.
Proof.
  unfold rstrip. destruct (lstrip_suffix (rev s)) as [a Ha].
  exists (rev a). rewrite <- rev_app_distr, <- Ha. now rewrite rev_involutive.
Qed.

Lemma rstrip_starts_clean (s : str) : starts_clean s -> starts_clean (rstrip s).
Proof.
  intros Hs. destruct (rstrip_prefix s) as [b Hb].
  destruct (rstrip s) as [|c r]; [exact I|]. rewrite Hb in Hs. exact Hs.
Qed.

Lemma strip_strip (s : str) : strip (strip s) = strip s.
Proof.
  unfold strip at 1.
  rewrite (@lstrip_id (strip s)) by apply rstrip_starts_clean, lstrip_starts_clean.
  unfold strip, rstrip. now rewrite rev_involutive, lstrip_lstrip.
Qed.

Lemma strip_chars (x : char) (s : str) : In x (strip s) -> In x s.
Proof.
  intros H. destruct (strip_part s) as (a & b & Hab). rewrite Hab.
  apply in_or_app. right. apply in_or_app. now left.
Qed.

Lemma collapse_spaces_chars (x : char) (s : str) :
  In x (collapse_spaces s) -> x = space \/ In x s.
Proof.
  unfold collapse_spaces, Re.sub. rewrite in_flat_map. intros [[c|w g] [Hin Hx]].
  - destruct Hx as [<-|[]]. right. exact (scan_keeps _ _ _ _ Hin).
  - destruct Hx as [<-|[]]. now left.
Qed.

Lemma tidy_punctuation_chars (x : char) (n : nat) :
  forall s, length s <= n -> In x (tidy_punctuation s) -> In x s.
Proof.
  induction n as [|n IH]; intros s Hlen.
  - destruct s; [|simpl in Hlen; lia]. now rewrite tidy_punctuation_nil.
  - destruct s as [|c s]; [now rewrite tidy_punctuation_nil|].
    simpl in Hlen. rewrite tidy_punctuation_cons.
    assert (Hkeep : In x (c :: tidy_punctuation s) -> In x (c :: s)).
    { intros [->|H]; [now left | right; apply IH; [lia | assumption]]. }
    destruct (is_space c); [|exact Hkeep].
    destruct (lstrip s) as [|d s2] eqn:E; [exact Hkeep|].
    destruct (punctuation d); [|exact Hkeep].
    assert (Hl := @lstrip_tail_length _ _ _ E).
    destruct (lstrip_suffix s) as [a Ha]. rewrite E in Ha.
    intros H. right. rewrite Ha. apply in_or_app. right.
    destruct H as [->|H]; [now left | right; apply IH; [lia | assumption]].
Qed.

Lemma unescape_without_ampersand (html5 : Html.entities) (s : str) :
  ~ In amp s -> Html.unescape html5 s = s.
Proof.
  intros Hnin. unfold Html.unescape.
  destruct (existsb (N.eqb amp) s) eqn:E; [|reflexivity].
  apply existsb_exists in E. destruct E as [x [Hx Ex]].
  apply N.eqb_eq in Ex. subst x. contradiction.
Qed.

Lemma strip_tags_without_bracket (s : str) : ~ In lt_sign s -> strip_tags s = s.
Proof.
  induction s as [|c s IH]; intros Hnin; [reflexivity|].
  rewrite strip_tags_cons, tag_match_head, IH; [reflexivity | |].
  - intros H. apply Hnin. now right.
  - intros ->. apply Hnin. now left.
Qed.

Lemma no_space_before_punctuation_part (a m b : str) :
  no_space_before_punctuation (a ++ m ++ b) -> no_space_before_punctuation m.
Proof.
  unfold no_space_before_punctuation. intros H.
  apply chain_app_r in H. now apply chain_app_l in H.
Qed.

(** C2, as far as it holds: on a text with no ampersand and no opening angle
    bracket, cleaning a second time changes nothing. *)
Theorem clean_text_idempotent_without_markup (html5 : Html.entities) (s : str) :
  ~ In amp s -> ~ In lt_sign s ->
  clean_text html5 (clean_text html5 s) = clean_text html5 s.
Proof.
  intros Hamp Hlt.
  assert (Hclean : clean_text html5 s
                   = strip (tidy_punctuation (collapse_spaces s))).
  { unfold clean_text. rewrite (unescape_without_ampersand html5 s Hamp).
    fold (collapse_spaces s). fold (tidy_punctuation (collapse_spaces s)).
    fold (strip_tags (tidy_punctuation (collapse_spaces s))).
    rewrite strip_tags_without_bracket; [reflexivity|].
    intros H. apply (tidy_punctuation_chars _ _ _ (le_n _)) in H.
    apply collapse_spaces_chars in H. destruct H as [H|H]; [discriminate | auto]. }
  set (t2 := tidy_punctuation (collapse_spaces s)) in *.
  assert (Hchars : forall x, x <> space -> In x (strip t2) -> In x s).
  { intros x Hx H. apply strip_chars in H.
    apply (tidy_punctuation_chars _ _ _ (le_n _)) in H.
    apply collapse_spaces_chars in H. destruct H as [H|H]; [contradiction | auto]. }
  destruct (tidy_punctuation_normal _ (collapse_spaces s) (le_n _)
              (@collapse_spaces_single _ s (le_n _))) as [H1 H2].
  fold t2 in H1, H2.
  destruct (strip_part t2) as (a & b & Hab).
  assert (H1' : single_spaces (strip t2)).
  { apply (@single_spaces_part a _ b). now rewrite <- Hab. }
  assert (H2' : no_space_before_punctuation (strip t2)).
  { apply (no_space_before_punctuation_part a _ b). now rewrite <- Hab. }
  rewrite Hclean. unfold clean_text.
  rewrite unescape_without_ampersand
    by (intros H; apply Hamp, Hchars; [discriminate | assumption]).
  fold (collapse_spaces (strip t2)). rewrite (@collapse_spaces_fixed _ H1').
  fold (tidy_punctuation (strip t2)). rewrite (tidy_punctuation_fixed _ H1' H2').
  fold (strip_tags (strip t2)).
  rewrite strip_tags_without_bracket
    by (intros H; apply Hlt, Hchars; [discriminate | assumption]).
  apply strip_strip.
Qed.

Lemma not_In_existsb (x : char) (s : str) :
  existsb (N.eqb x) s = false -> ~ In x s.
Proof.
  intros E Hin. assert (H : existsb (N.eqb x) s = true).
  { apply existsb_exists. exists x. split; [assumption | apply N.eqb_refl]. }
  congruence.
Qed.

(** A text with spaces to collapse and to remove, and no markup. *)
Lemma clean_text_idempotent_without_markup_witness :
  clean_text no_names (clean_text no_names (lit " word ,  next . "))
  = clean_text no_names (lit " word ,  next . ").
Proof.
  apply (clean_text_idempotent_without_markup no_names (lit " word ,  next . "));
    apply not_In_existsb; vm_compute; reflexivity.
Defined.

Example clean_text_on_spaces :
  clean_text no_names (lit " word ,  next . ") = lit "word, next.".
Proof. vm_compute. reflexivity. Qed.

(** An opening bracket with a closing one right behind it is no tag for the
    pattern, and stays. *)
Example clean_text_keeps_empty_brackets (html5 : Html.entities) :
  clean_text html5 (lit "a <> b < c> d") = lit "a <> b  d".
Proof. vm_compute. reflexivity. Qed.

(** Every pattern of the program takes at least one character, so none of
    them matches the empty string. *)
Example patterns_take_a_character :
  Forall (fun r => 0 < Re.min_len r)
    [paragraph_pattern; speaker_pattern; dialogue_pattern; spaces_pattern;
     punctuation_pattern; tag_pattern; Html.charref].
Proof. repeat constructor. Qed.

(** * Further properties *)

(** ** What the patterns capture *)

Lemma rep_inv_prefix {A} (greedy : bool) (p : char -> bool) (s : str) :
  forall (lo : nat) (hi : option nat) (k : str -> option A) (x : A),
    Re.rep greedy p lo hi s k = Some x ->
    exists pre s1,
      s = pre ++ s1 /\ forallb p pre = true /\ lo <= length pre /\ k s1 = Some x.
Proof.
  induction s as [|c s IH]; intros lo hi k x H; simpl in H.
  - destruct lo; [|discriminate]. exists [], []. repeat split; [simpl; lia | assumption].
  - assert (Hstop : match lo with 0 => k (c :: s) | S _ => None end = Some x ->
                    exists pre s1, c :: s = pre ++ s1 /\ forallb p pre = true
                                   /\ lo <= length pre /\ k s1 = Some x).
    { destruct lo; [|discriminate]. intros Hk. exists [], (c :: s).
      repeat split; [simpl; lia | assumption]. }
    destruct (p c) eqn:Ec; [|exact (Hstop H)].
    assert (Hmore : Re.rep greedy p (pred lo) (option_map pred hi) s k = Some x ->
                    exists pre s1, c :: s = pre ++ s1 /\ forallb p pre = true
                                   /\ lo <= length pre /\ k s1 = Some x).
    { intros Hk. destruct (IH _ _ _ _ Hk) as (pre & s1 & -> & Hp & Hlo & Hk').
      exists (c :: pre), s1. simpl. rewrite Ec, Hp.
      repeat split; [lia | assumption]. }
    simpl in H. destruct (Re.may_take hi); [|exact (Hstop H)].
    destruct greedy.
    + destruct (Re.rep true p (pred lo) (option_map pred hi) s k) eqn:E; auto.
    + destruct (match lo with 0 => k (c :: s) | S _ => None end) eqn:E; auto.
Qed.

Lemma firstn_prefix {A} (a b : list A) :
  firstn (length (a ++ b) - length b) (a ++ b) = a.
Proof.
  rewrite length_app. replace (length a + length b - length b) with (length a) by lia.
  rewrite firstn_app, Nat.sub_diag, firstn_all. simpl. apply app_nil_r.
Qed.

(** A pattern that ends in a group of one or more characters of a class and
    a closing text captures a non-empty run of that class. *)
Lemma closing_group_capture {A} (p : char -> bool) (closing : str) (s : str)
    (g : option str) (k : str -> option str -> option A) (x : A) :
  Re.run (Re.Seq (Re.Grp (Re.plus p)) (Re.text closing)) s g k = Some x ->
  exists s1 name,
    k s1 (Some name) = Some x /\ name <> [] /\ forallb p name = true.
Proof.
  intros H.
  change (Re.run (Re.Grp (Re.plus p)) s g
            (fun s1 g1 => Re.run (Re.text closing) s1 g1 k) = Some x) in H.
  cbn [Re.run] in H. unfold Re.plus in H.
  apply rep_inv_prefix in H. destruct H as (pre & s1 & -> & Hp & Hlo & H).
  rewrite firstn_prefix in H.
  apply run_inv in H. destruct H as (s2 & g2 & H & _ & G).
  assert (Hg : Re.has_group (Re.text closing) = false).
  { clear. induction closing as [|c cs IH]; [reflexivity | exact IH]. }
  rewrite (G Hg) in H. exists s2, pre. repeat split; [assumption | | assumption].
  intros ->. simpl in Hlo. lia.
Qed.

Ltac peel_pattern H :=
  repeat (change (Re.run (Re.Seq ?a ?b) ?s ?g ?k)
            with (Re.run a s g (fun s1 g1 => Re.run b s1 g1 k)) in H;
          match type of H with
          | Re.run (Re.Grp _) _ _ _ = _ => fail 1
          | _ => apply run_inv in H; destruct H as (? & ? & H & _ & _)
          end).

Lemma speaker_capture (s : str) (n : nat) (g : option str) :
  Re.match_at speaker_pattern s = Some (n, g) ->
  exists name, g = Some name /\ name <> [] /\ forallb (except lt_sign) name = true.
Proof.
  intros H. unfold Re.match_at, speaker_pattern in H. cbn [Re.seqs] in H.
  peel_pattern H.
  change (Re.run (Re.Grp ?a) ?s ?g (fun s1 g1 => Re.run ?b s1 g1 ?k))
    with (Re.run (Re.Seq (Re.Grp a) b) s g k) in H.
  apply closing_group_capture in H. destruct H as (s1 & name & H & Hne & Hp).
  inversion H; subst. now exists name.
Qed.

Lemma dialogue_capture (s : str) (n : nat) (g : option str) :
  Re.match_at dialogue_pattern s = Some (n, g) ->
  exists name, g = Some name /\ name <> [] /\ forallb (except lt_sign) name = true.
Proof.
  intros H. unfold Re.match_at, dialogue_pattern in H. cbn [Re.seqs] in H.
  peel_pattern H.
  change (Re.run (Re.Grp ?a) ?s ?g (fun s1 g1 => Re.run ?b s1 g1 ?k))
    with (Re.run (Re.Seq (Re.Grp a) b) s g k) in H.
  apply closing_group_capture in H. destruct H as (s1 & name & H & Hne & Hp).
  inversion H; subst. now exists name.
Qed.

(** ** The extractor's output *)

Lemma except_not_in (x : char) (s : str) :
  forallb (except x) s = true -> ~ In x s.
Proof.
  intros H Hin. rewrite forallb_forall in H. specialize (H x Hin).
  unfold except in H. now rewrite N.eqb_refl in H.
Qed.

Lemma join_chars (x : char) (sep : str) (parts : list str) :
  In x (join sep parts) -> In x sep \/ exists part, In part parts /\ In x part.
Proof.
  induction parts as [|p ps IH]; [contradiction|].
  destruct ps as [|q ps].
  - intros H. right. exists p. split; [now left | exact H].
  - change (join sep (p :: q :: ps)) with (p ++ sep ++ join sep (q :: ps)).
    intros H. apply in_app_or in H. destruct H as [H|H].
    + right. exists p. split; [now left | exact H].
    + apply in_app_or in H. destruct H as [H|H]; [now left|].
      destruct (IH H) as [H'|(part & Hpart & Hx)]; [now left|].
      right. exists part. split; [now right | exact Hx].
Qed.

Lemma join_nonempty (sep : str) (parts : list str) :
  parts <> [] -> (forall part, In part parts -> part <> []) -> join sep parts <> [].
Proof.
  destruct parts as [|p ps]; [congruence|]. intros _ Hparts.
  assert (Hp : p <> []) by (apply Hparts; now left).
  destruct p as [|c p]; [congruence|]. destruct ps; discriminate.
Qed.

Lemma strip_ends_clean (s : str) : starts_clean (strip s) /\ ends_clean (strip s).
Proof.
  split.
  - apply rstrip_starts_clean, lstrip_starts_clean.
  - unfold ends_clean, strip, rstrip. rewrite rev_involutive.
    apply lstrip_starts_clean.
Qed.

Lemma fragments_well_formed (paragraph fragment : str) :
  In fragment (Re.findall dialogue_pattern paragraph) ->
  fragment <> [] /\ ~ In lt_sign fragment.
Proof.
  intros H. apply findall_hit in H. destruct H as (s & n & g & H & ->).
  apply dialogue_capture in H. destruct H as (name & -> & Hne & Hp).
  split; [exact Hne | exact (except_not_in _ _ Hp)].
Qed.

Lemma contribution_cases (paragraph : str) :
  contribution paragraph = []
  \/ exists name,
       Re.search speaker_pattern paragraph = Some name
       /\ Re.findall dialogue_pattern paragraph <> []
       /\ contribution paragraph
          = [(strip name, join [space] (Re.findall dialogue_pattern paragraph))].
Proof.
  unfold contribution, extract_paragraph.
  destruct (Re.search speaker_pattern paragraph) as [name|]; [|now left].
  destruct (Re.findall dialogue_pattern paragraph) as [|f fs] eqn:E; [now left|].
  right. exists name. repeat split. discriminate.
Qed.

(** X1: every utterance the extractor yields has a non-empty text without an
    opening angle bracket, and a speaker name without an opening angle
    bracket and without whitespace at either end. *)
Theorem extracted_utterances_are_well_formed
    (html_content speaker text : str) :
  In (speaker, text) (extract_speaker_and_text html_content) ->
  text <> [] /\ ~ In lt_sign text
  /\ ~ In lt_sign speaker /\ starts_clean speaker /\ ends_clean speaker.
Proof.
  rewrite extract_flat_map, in_flat_map. intros (paragraph & _ & Hin).
  destruct (contribution_cases paragraph) as [E|(name & Hs & Hf & E)];
    rewrite E in Hin; [contradiction|].
  destruct Hin as [Heq|[]]. inversion Heq; subst. clear Heq.
  split; [|split; [|split]].
  - apply join_nonempty; [assumption|].
    intros part Hpart. now apply (fragments_well_formed paragraph).
  - intros Hlt. apply join_chars in Hlt.
    destruct Hlt as [[Hlt|[]]|(part & Hpart & Hlt)]; [discriminate|].
    now apply (fragments_well_formed paragraph part).
  - intros Hlt. apply strip_chars in Hlt.
    apply search_hit in Hs. destruct Hs as (s & n & g & Hs & ->).
    apply speaker_capture in Hs. destruct Hs as (name' & -> & _ & Hp).
    exact (except_not_in _ _ Hp Hlt).
  - apply strip_ends_clean.
Qed.

Lemma extracted_utterances_are_well_formed_witness :
  lit "Hel lo world" <> [] /\ ~ In lt_sign (lit "Hel lo world")
  /\ ~ In lt_sign (lit "Alice") /\ starts_clean (lit "Alice")
  /\ ends_clean (lit "Alice").
Proof.
  apply (extracted_utterances_are_well_formed alice_document).
  vm_compute. left. reflexivity.
Defined.

(** X2: a transcript has at most one utterance for each segment of the
    document. *)
Theorem extract_at_most_one_per_segment (html_content : str) :
  length (extract_speaker_and_text html_content)
  <= length (Re.findall paragraph_pattern html_content).
Proof.
  rewrite extract_flat_map.
  induction (Re.findall paragraph_pattern html_content) as [|p ps IH];
    [apply le_n|].
  simpl. rewrite length_app.
  destruct (contribution_cases p) as [E|(name & _ & _ & E)]; rewrite E; simpl; lia.
Qed.

Lemma paragraph_match_head (c : char) (s : str) :
  c <> lt_sign -> Re.match_at paragraph_pattern (c :: s) = None.
Proof.
  intros Hc. unfold Re.match_at, paragraph_pattern. cbn [Re.seqs].
  change (Re.text (lit "<p"))
    with (Re.Seq (Re.Chr (just lt_sign)) (Re.Seq (Re.Chr (just 112%N)) Re.Eps)).
  cbn [Re.run]. unfold just at 1.
  destruct (N.eqb_spec lt_sign c); [congruence | reflexivity].
Qed.

Lemma scan_nothing (r : Re.re) (c0 : char) (s : str) :
  0 < Re.min_len r ->
  (forall c s', c <> c0 -> Re.match_at r (c :: s') = None) ->
  ~ In c0 s -> Re.scan r s 0 = map Re.Keep s.
Proof.
  intros Hmin Hhead. induction s as [|c s IH]; intros Hnin.
  - now apply scan_nil.
  - rewrite scan_step, Hhead, IH; [reflexivity | |].
    + intros H. apply Hnin. now right.
    + intros ->. apply Hnin. now left.
Qed.

(** X3: a document without an opening angle bracket has no segment, and its
    transcript is empty. *)
Theorem extract_without_markup_is_empty (html_content : str) :
  ~ In lt_sign html_content ->
  Re.findall paragraph_pattern html_content = []
  /\ extract_speaker_and_text html_content = [].
Proof.
  intros Hnin.
  assert (H : Re.findall paragraph_pattern html_content = []).
  { unfold Re.findall.
    rewrite (scan_nothing paragraph_pattern lt_sign html_content);
      [| repeat constructor | exact paragraph_match_head | exact Hnin].
    induction html_content as [|c s IH]; [reflexivity|]. simpl. apply IH.
    intros Hin. apply Hnin. now right. }
  split; [exact H|]. now rewrite extract_flat_map, H.
Qed.

Lemma extract_without_markup_is_empty_witness :
  Re.findall paragraph_pattern (lit "Ann: hello there") = []
  /\ extract_speaker_and_text (lit "Ann: hello there") = [].
Proof.
  apply (extract_without_markup_is_empty (lit "Ann: hello there")).
  apply not_In_existsb. vm_compute. reflexivity.
Defined.

(** ** The shape of a cleaned text *)

Section CleanedShape.

Variable html5 : Html.entities.

Lemma clean_text_steps (s : str) :
  clean_text html5 s =
  strip (strip_tags (tidy_punctuation (collapse_spaces (Html.unescape html5 s)))).
Proof. reflexivity. Qed.

Lemma clean_text_chars (x : char) (s : str) :
  In x (clean_text html5 s) -> In x (collapse_spaces (Html.unescape html5 s)).
Proof.
  rewrite clean_text_steps. intros H.
  apply strip_chars, strip_tags_chars in H.
  exact (tidy_punctuation_chars x _ _ (le_n _) H).
Qed.

Lemma clean_text_ends (s : str) :
  starts_clean (clean_text html5 s) /\ ends_clean (clean_text html5 s).
Proof. rewrite clean_text_steps. apply strip_ends_clean. Qed.

(** X4: a cleaned text has no whitespace at either end, and the only
    whitespace character in it is the plain space: no tab, no line break. *)
Theorem clean_text_whitespace_is_plain (s : str) :
  starts_clean (clean_text html5 s)
  /\ ends_clean (clean_text html5 s)
  /\ Forall (fun c => is_space c = true -> c = space) (clean_text html5 s)
  /\ ~ In newline (clean_text html5 s).
Proof.
  assert (HF : Forall (fun c => is_space c = true -> c = space)
                 (clean_text html5 s)).
  { apply Forall_forall. intros x Hx. apply clean_text_chars in Hx.
    destruct (@collapse_spaces_single _ (Html.unescape html5 s) (le_n _))
      as [H _].
    rewrite Forall_forall in H. now apply H. }
  split; [|split; [|split]].
  - apply clean_text_ends.
  - apply clean_text_ends.
  - exact HF.
  - intros Hin. rewrite Forall_forall in HF.
    specialize (HF newline Hin eq_refl). discriminate.
Qed.

Lemma collapse_spaces_blank (s : str) :
  forallb is_space s = true ->
  collapse_spaces s = [] \/ collapse_spaces s = [space].
Proof.
  destruct s as [|c s]; [now left|]. simpl. intros H.
  apply andb_true_iff in H. destruct H as [Hc Hs]. right.
  rewrite collapse_spaces_cons, Hc, (lstrip_spaces s Hs). reflexivity.
Qed.

Lemma space_is_not_ampersand (s : str) : forallb is_space s = true -> ~ In amp s.
Proof.
  intros H Hin. rewrite forallb_forall in H. specialize (H amp Hin). discriminate.
Qed.

(** X5: a text of whitespace only, the empty text included, cleans to the
    empty text. *)
Theorem clean_text_of_blank_is_empty (s : str) :
  forallb is_space s = true -> clean_text html5 s = [].
Proof.
  intros H. rewrite clean_text_steps.
  rewrite (unescape_without_ampersand html5 s (space_is_not_ampersand s H)).
  destruct (collapse_spaces_blank s H) as [-> | ->]; reflexivity.
Qed.

Lemma strip_fixed (s : str) : starts_clean s -> ends_clean s -> strip s = s.
Proof.
  intros Hs He. unfold strip, rstrip. rewrite (@lstrip_id s Hs).
  rewrite (@lstrip_id (rev s) He). apply rev_involutive.
Qed.

Lemma clean_text_fixed_parts (s : str) :
  ~ In amp s -> ~ In lt_sign s ->
  single_spaces s -> no_space_before_punctuation s ->
  starts_clean s -> ends_clean s ->
  clean_text html5 s = s.
Proof.
  intros Hamp Hlt H1 H2 Hs He. rewrite clean_text_steps.
  rewrite (unescape_without_ampersand html5 s Hamp).
  rewrite (@collapse_spaces_fixed s H1), (tidy_punctuation_fixed s H1 H2).
  rewrite (strip_tags_without_bracket s Hlt). exact (strip_fixed s Hs He).
Qed.

(** X6: cleaning leaves a text as it is when the text has no ampersand and
    no opening angle bracket, its whitespace is single plain spaces, none of
    them before a punctuation mark, and none at either end. *)
Theorem clean_text_fixed_point (s : str) :
  ~ In amp s -> ~ In lt_sign s ->
  single_spaces s -> no_space_before_punctuation s ->
  starts_clean s -> ends_clean s ->
  clean_text html5 s = s.
Proof. exact (clean_text_fixed_parts s). Qed.

Lemma plain_text_steps (s : str) :
  ~ In amp s -> ~ In lt_sign s ->
  clean_text html5 s = strip (tidy_punctuation (collapse_spaces s)).
Proof.
  intros Hamp Hlt. rewrite clean_text_steps.
  rewrite (unescape_without_ampersand html5 s Hamp).
  rewrite strip_tags_without_bracket; [reflexivity|].
  intros H. apply (tidy_punctuation_chars _ _ _ (le_n _)) in H.
  apply collapse_spaces_chars in H. destruct H as [H|H]; [discriminate | auto].
Qed.

Lemma clean_text_normal_parts (s : str) :
  ~ In amp s -> ~ In lt_sign s ->
  ~ In amp (clean_text html5 s)
  /\ ~ In lt_sign (clean_text html5 s)
  /\ single_spaces (clean_text html5 s)
  /\ no_space_before_punctuation (clean_text html5 s).
Proof.
  intros Hamp Hlt.
  assert (Hchars : forall x, x <> space -> In x (clean_text html5 s) -> In x s).
  { intros x Hx H. apply clean_text_chars in H.
    rewrite (unescape_without_ampersand html5 s Hamp) in H.
    apply collapse_spaces_chars in H. destruct H as [H|H]; [contradiction | auto]. }
  destruct (tidy_punctuation_normal _ (collapse_spaces s) (le_n _)
              (@collapse_spaces_single _ s (le_n _))) as [H1 H2].
  destruct (strip_part (tidy_punctuation (collapse_spaces s))) as (a & b & Hab).
  rewrite Hab in H1, H2. rewrite <- (plain_text_steps s Hamp Hlt) in H1, H2.
  split; [|split; [|split]].
  - intros H. apply Hamp, Hchars; [discriminate | assumption].
  - intros H. apply Hlt, Hchars; [discriminate | assumption].
  - exact (@single_spaces_part a _ b H1).
  - exact (no_space_before_punctuation_part a _ b H2).
Qed.

(** X7: the cleaned form of a text with no ampersand and no opening angle
    bracket has neither of them, has single plain spaces only, and has no
    space before a punctuation mark. *)
Theorem clean_text_of_plain_text_is_normal (s : str) :
  ~ In amp s -> ~ In lt_sign s ->
  ~ In amp (clean_text html5 s)
  /\ ~ In lt_sign (clean_text html5 s)
  /\ single_spaces (clean_text html5 s)
  /\ no_space_before_punctuation (clean_text html5 s).
Proof. exact (clean_text_normal_parts s). Qed.

(** Cleaning the cleaned form of a plain text changes nothing. *)
Lemma clean_text_of_plain_text_twice (s : str) :
  ~ In amp s -> ~ In lt_sign s ->
  clean_text html5 (clean_text html5 s) = clean_text html5 s.
Proof.
  intros Hamp Hlt.
  destruct (clean_text_normal_parts s Hamp Hlt) as (H1 & H2 & H3 & H4).
  destruct (clean_text_ends s) as [H5 H6].
  now apply clean_text_fixed_parts.
Qed.

End CleanedShape.

Ltac shape :=
  repeat first
    [ split | apply Forall_cons | apply Forall_nil | exact I
    | apply not_In_existsb; vm_compute; reflexivity
    | (let H := fresh in intros H; vm_compute in H; discriminate H)
    | (intros _; reflexivity) ].

Lemma clean_text_of_blank_is_empty_witness :
  clean_text no_names [space; 9%N; newline; 160%N] = [].
Proof.
  apply (clean_text_of_blank_is_empty no_names [space; 9%N; newline; 160%N]).
  vm_compute. reflexivity.
Defined.

Lemma clean_text_fixed_point_witness :
  clean_text no_names (lit "Well, yes: it works.") = lit "Well, yes: it works.".
Proof.
  apply (clean_text_fixed_point no_names (lit "Well, yes: it works.")); shape.
Defined.

Lemma clean_text_of_plain_text_is_normal_witness :
  ~ In amp (clean_text no_names (lit " so ,  it  works ! "))
  /\ ~ In lt_sign (clean_text no_names (lit " so ,  it  works ! "))
  /\ single_spaces (clean_text no_names (lit " so ,  it  works ! "))
  /\ no_space_before_punctuation (clean_text no_names (lit " so ,  it  works ! ")).
Proof.
  apply (clean_text_of_plain_text_is_normal no_names (lit " so ,  it  works ! "));
    shape.
Defined.

(** ** Groups and numbering *)

Lemma filter_all {A} (f : A -> bool) (l : list A) :
  (forall x, In x l -> f x = true) -> filter f l = l.
Proof.
  induction l as [|x l IH]; intros H; [reflexivity|]. simpl.
  rewrite (H x (or_introl eq_refl)), IH; [reflexivity|].
  intros y Hy. apply H. now right.
Qed.

Lemma filter_none {A} (f : A -> bool) (l : list A) :
  (forall x, In x l -> f x = false) -> filter f l = [].
Proof.
  induction l as [|x l IH]; intros H; [reflexivity|]. simpl.
  rewrite (H x (or_introl eq_refl)). apply IH. intros y Hy. apply H. now right.
Qed.

Lemma enumerate1_snd {A} (l : list A) (e : nat * A) :
  In e (enumerate1 l) -> In (snd e) l.
Proof. destruct e as [i x]. unfold enumerate1. apply in_combine_r. Qed.

Lemma flat_map_ext_in {A B} (f g : A -> list B) (l : list A) :
  (forall x, In x l -> f x = g x) -> flat_map f l = flat_map g l.
Proof.
  induction l as [|x l IH]; intros H; [reflexivity|]. simpl.
  rewrite (H x (or_introl eq_refl)), IH; [reflexivity|].
  intros y Hy. apply H. now right.
Qed.

Section Numbering.

Variable html5 : Html.entities.

(** X8: the dictionary of groups is empty exactly when every text of the
    transcript cleans to the empty text. *)
Theorem no_group_iff_no_text (t : transcript) :
  organize_by_speaker html5 t = []
  <-> forall u, In u t -> clean_text html5 (snd u) = [].
Proof.
  split.
  - intros Hnone [speaker dialogue] Hin. simpl.
    assert (Hp := organize_pairs html5 t). rewrite Hnone in Hp.
    apply Permutation_nil in Hp.
    destruct (clean_text html5 dialogue) as [|c x] eqn:E; [reflexivity|].
    assert (Hk : In (speaker, c :: x) (kept html5 t)).
    { apply kept_In. split; [discriminate|]. now exists dialogue. }
    rewrite Hp in Hk. contradiction.
  - intros Hall. unfold organize_by_speaker. rewrite organize_fold.
    unfold kept, cleaned. rewrite filter_none; [reflexivity|].
    intros u Hu. apply in_map_iff in Hu. destruct Hu as (v & <- & Hv).
    simpl. now rewrite (Hall v Hv).
Qed.


Lemma format_output_lines_flat_map
    (speakers : speakers_dict) (filename stamp : str) :
  format_output_lines html5 speakers filename stamp =
  header (lit "TRANSCRIPT: ") filename stamp
    ++ flat_map (fun e => [speaker_line (fst e); repeat 45%N 40]
                            ++ map (fun d => group_line (fst d) (snd d))
                                 (filter (fun d => truthy (snd d))
                                    (enumerate1 (map (clean_text html5) (snd e))))
                            ++ [[]])
         speakers.
Proof.
  unfold format_output_lines.
  now rewrite (fold_left_append _ _ (speaker_step_appends html5)).
Qed.

(** X10: for a transcript whose texts have no ampersand and no opening angle
    bracket, the grouped rendering emits every text of every group, as it is
    stored, numbered 1, 2, 3, ... within its group. *)
Theorem grouped_numbering_of_plain_text
    (t : transcript) (filename stamp : str) :
  (forall u, In u t -> ~ In amp (snd u) /\ ~ In lt_sign (snd u)) ->
  format_output_lines html5 (organize_by_speaker html5 t) filename stamp
  = grouped_lines_all_numbered (organize_by_speaker html5 t) filename stamp.
Proof.
  intros Hplain. rewrite format_output_lines_flat_map.
  unfold grouped_lines_all_numbered. f_equal.
  apply flat_map_ext_in. intros [speaker texts] Hin. simpl. do 3 f_equal.
  assert (Hstored : forall x, In x texts ->
                      x <> [] /\ clean_text html5 x = x).
  { intros x Hx.
    assert (Hk := organize_text_kept html5 t speaker texts x Hin Hx).
    apply kept_In in Hk. destruct Hk as (Hne & dialogue & Hd & ->).
    split; [assumption|].
    destruct (Hplain _ Hd) as [Hamp Hlt].
    exact (clean_text_of_plain_text_twice html5 dialogue Hamp Hlt). }
  assert (Hmap : map (clean_text html5) texts = texts).
  { rewrite <- (map_id texts) at 2. apply map_ext_in.
    intros x Hx. now apply Hstored. }
  rewrite Hmap. f_equal. apply filter_all. intros e He.
  apply truthy_true. apply Hstored. exact (enumerate1_snd texts e He).
Qed.

Lemma chronological_entries_length (l : transcript) :
  forall start,
    length (flat_map
              (fun e => if truthy (clean_text html5 (snd (snd e)))
                        then [chronological_line (fst e) (fst (snd e))
                                (clean_text html5 (snd (snd e))); []]
                        else [])
              (combine (seq start (length l)) l))
    = 2 * length (kept html5 l).
Proof.
  induction l as [|u l IH]; intros start; [reflexivity|].
  simpl. rewrite length_app, IH. unfold kept, cleaned. simpl.
  destruct (truthy (clean_text html5 (snd u))); simpl; lia.
Qed.

(** X11: the chronological rendering has the four header lines and two
    lines, the entry and a blank one, for every utterance whose cleaned text
    is not empty. *)
Theorem chronological_line_count (t : transcript) (filename stamp : str) :
  length (format_chronological_lines html5 t filename stamp)
  = 4 + 2 * length (kept html5 t).
Proof.
  rewrite chronological_lines_flat_map, length_app.
  unfold enumerate1. now rewrite chronological_entries_length.
Qed.

End Numbering.


Lemma grouped_numbering_of_plain_text_witness :
  format_output_lines no_names (organize_by_speaker no_names plain_talk)
    (lit "m.raw") (lit "now")
  = grouped_lines_all_numbered (organize_by_speaker no_names plain_talk)
      (lit "m.raw") (lit "now").
Proof.
  apply (grouped_numbering_of_plain_text no_names plain_talk).
  intros u [<-|[<-|[<-|[]]]]; shape.
Defined.

Example plain_talk_grouped :
  format_output_lines no_names (organize_by_speaker no_names plain_talk)
    (lit "m.raw") (lit "now")
  = header (lit "TRANSCRIPT: ") (lit "m.raw") (lit "now")
      ++ [lit "SPEAKER: Ann"; repeat 45%N 40; lit "1. hello there.";
          lit "2. how are you?"; [];
          lit "SPEAKER: Bob"; repeat 45%N 40; lit "1. hi"; []].
Proof. vm_compute. reflexivity. Qed.

(** ** Output files *)




Lemma rfind_app (c : char) (a b : str) :
  rfind c (a ++ b) =
  match rfind c b with
  | Some i => Some (length a + i)
  | None => rfind c a
  end.
Proof.
  induction a as [|d a IH]; simpl.
  - now destruct (rfind c b).
  - rewrite IH. now destruct (rfind c b).
Qed.

Lemma stem_of_raw (base : str) : base <> [] -> stem (base ++ lit ".raw") = base.
Proof.
  intros Hne. unfold stem. rewrite rfind_app.
  assert (Hr : rfind 46%N (lit ".raw") = Some 0) by reflexivity.
  rewrite Hr, Nat.add_0_r, length_app.
  assert (Hl : length (lit ".raw") = 4) by reflexivity. rewrite Hl.
  assert (Hpos : 0 < length base) by (destruct base; [congruence | simpl; lia]).
  assert (H1 : (0 <? length base) = true) by now apply Nat.ltb_lt.
  assert (H2 : (length base <? length base + 4 - 1) = true)
    by (apply Nat.ltb_lt; lia).
  rewrite H1, H2. cbn [andb].
  rewrite firstn_app, Nat.sub_diag, firstn_all. cbn [firstn]. apply app_nil_r.
Qed.


(** X12: an input file named [base.raw], with a base that is not empty, has
    its two renderings written to [base_by_speaker.txt] and
    [base_chronological.txt]; two such input files with different names
    never share an output file. *)
Theorem output_names_do_not_collide (base base' : str) :
  base <> [] -> base' <> [] ->
  by_speaker_name (base ++ lit ".raw") = base ++ lit "_by_speaker.txt"
  /\ chronological_name (base ++ lit ".raw") = base ++ lit "_chronological.txt"
  /\ by_speaker_name (base ++ lit ".raw")
     <> chronological_name (base' ++ lit ".raw")
  /\ (base <> base' ->
      by_speaker_name (base ++ lit ".raw") <> by_speaker_name (base' ++ lit ".raw")
      /\ chronological_name (base ++ lit ".raw")
         <> chronological_name (base' ++ lit ".raw")).
Proof.
  intros Hb Hb'. unfold by_speaker_name, chronological_name.
  rewrite (stem_of_raw base Hb), (stem_of_raw base' Hb').
  split; [reflexivity|]. split; [reflexivity|]. split.
  - intros H. apply (f_equal (@rev char)) in H. rewrite !rev_app_distr in H.
    vm_compute in H. discriminate H.
  - intros Hne. split; intros H; apply app_inv_tail in H; contradiction.
Qed.

Lemma output_names_do_not_collide_witness :
  by_speaker_name (lit "monday" ++ lit ".raw") = lit "monday" ++ lit "_by_speaker.txt"
  /\ chronological_name (lit "monday" ++ lit ".raw")
     = lit "monday" ++ lit "_chronological.txt"
  /\ by_speaker_name (lit "monday" ++ lit ".raw")
     <> chronological_name (lit "friday" ++ lit ".raw")
  /\ (lit "monday" <> lit "friday" ->
      by_speaker_name (lit "monday" ++ lit ".raw")
      <> by_speaker_name (lit "friday" ++ lit ".raw")
      /\ chronological_name (lit "monday" ++ lit ".raw")
         <> chronological_name (lit "friday" ++ lit ".raw")).
Proof.
  apply (output_names_do_not_collide (lit "monday") (lit "friday")); discriminate.
Defined.

(** A name that starts with its only dot has no suffix for [Path.stem]:
    the file [.raw] and the file [.raw.raw] write to the same outputs. *)
Example hidden_names_collide :
  by_speaker_name (lit ".raw") = by_speaker_name (lit ".raw.raw").
Proof. vm_compute. reflexivity. Qed.

(** ** Processing a file *)

Section Processing.

Variable html5 : Html.entities.
Variable strftime_now : nat -> str.

Lemma organize_nil : organize_by_speaker html5 [] = [].
Proof. reflexivity. Qed.




End Processing.





Section Containment.

Variable html5 : Html.entities.
Variable strftime_now : nat -> str.




End Containment.



(** ** The batch *)





(** X19: cleaning invents no character: every character of a cleaned text
    is a plain space or a character of the text as [html.unescape] decoded
    it, and of the text itself when that has no ampersand. *)
Theorem clean_text_invents_no_character
    (html5 : Html.entities) (s : str) (x : char) :
  In x (clean_text html5 s) ->
  (x = space \/ In x (Html.unescape html5 s))
  /\ (~ In amp s -> x = space \/ In x s).
Proof.
  intros H. apply clean_text_chars, collapse_spaces_chars in H.
  split; [exact H|]. intros Hamp.
  now rewrite (unescape_without_ampersand html5 s Hamp) in H.
Qed.

Lemma clean_text_invents_no_character_witness :
  (46%N = space \/ In 46%N (Html.unescape no_names (lit "word .")))
  /\ (~ In amp (lit "word .") -> 46%N = space \/ In 46%N (lit "word .")).
Proof.
  apply (clean_text_invents_no_character no_names (lit "word .") 46%N).
  vm_compute. right. right. right. right. left. reflexivity.
Defined.
